(** * WAMI orchestration core (src/wami/app.js): a shallow embedding

    The file follows app.js top to bottom: JavaScript string primitives
    used by the intent resolver, the flow/step data model with the flow
    collection as an array of object references, the editor commit, the
    run handler, save-in-place, the image viewer and the share-target
    pipeline with its transfer cache.

    Conventions.
    - A JavaScript string is a Rocq [string]; its characters are the
      UTF-8 bytes of the text.
    - A JavaScript exception is the [Throw] branch of [result].
    - The run listener is split at its [await] on the engine, the one
      suspension during which the session is observed; the other awaits
      are on collaborators (store, cache, file system) taken to settle
      before the next event is dispatched, and those calls succeed unless
      a failure is modelled explicitly. *)

From Stdlib Require Import ZArith Ascii String List Lia Permutation Sorted.
From stdpp Require Import base option list strings gmap fin_maps.

Local Open Scope string_scope.
Local Open Scope Z_scope.

(** ** Exceptions *)

Inductive exn : Type :=
  | TypeError
  | URIError
  | SyntaxError
  | Rejected.

Inductive result (A : Type) : Type :=
  | Ok (a : A)
  | Throw (e : exn).
Arguments Ok {A} a.
Arguments Throw {A} e.

Definition rbind {A B} (r : result A) (k : A → result B) : result B :=
  match r with
  | Ok a => k a
  | Throw e => Throw e
  end.

Notation "'let*' x ':=' r 'in' k" := (rbind r (fun x => k))
  (at level 10, x pattern, r at level 100, k at level 200).

(** ** JavaScript string primitives *)

Module JsString.

Definition code (c : ascii) : Z := Z.of_nat (nat_of_ascii c).
Definition chr (z : Z) : ascii := ascii_of_nat (Z.to_nat z).

(** [s.startsWith(p)] *)
Fixpoint startsWith (p s : string) : bool :=
  match p, s with
  | EmptyString, _ => true
  | String a p', String b s' => if Ascii.eqb a b then startsWith p' s' else false
  | String _ _, EmptyString => false
  end.

(** [s.substring(n)] *)
Fixpoint substring_from (n : nat) (s : string) : string :=
  match n, s with
  | O, _ => s
  | S n', String _ s' => substring_from n' s'
  | S _, EmptyString => EmptyString
  end.

(** [s.includes(p)] *)
Fixpoint includes (p s : string) : bool :=
  startsWith p s ||
  match s with
  | EmptyString => false
  | String _ s' => includes p s'
  end.

Definition lower (c : ascii) : ascii :=
  let n := code c in
  if (65 <=? n) && (n <=? 90) then chr (n + 32) else c.

(** [s.toLowerCase()].  Letters outside ASCII are left as they are; the
    only non-ASCII characters whose lower case contains an ASCII letter
    are U+212A (k) and U+0130 (i followed by a combining dot), and none
    of them can complete one of the command words looked for below. *)
Fixpoint toLowerCase (s : string) : string :=
  match s with
  | EmptyString => EmptyString
  | String c s' => String (lower c) (toLowerCase s')
  end.

(** White space and line terminators removed by [trim], in UTF-8. *)
Definition whitespace : list string :=
  map (fun l => string_of_list_ascii (map chr l))
    [ [9]; [10]; [11]; [12]; [13]; [32];
      [194; 160]; [225; 154; 128];
      [226; 128; 128]; [226; 128; 129]; [226; 128; 130]; [226; 128; 131];
      [226; 128; 132]; [226; 128; 133]; [226; 128; 134]; [226; 128; 135];
      [226; 128; 136]; [226; 128; 137]; [226; 128; 138];
      [226; 128; 168]; [226; 128; 169]; [226; 128; 175];
      [226; 129; 159]; [227; 128; 128]; [239; 187; 191] ]%Z.

Fixpoint first_prefix (ws : list string) (s : string) : option nat :=
  match ws with
  | [] => None
  | w :: ws' => if startsWith w s then Some (String.length w) else first_prefix ws' s
  end.

Fixpoint trimStart_fuel (fuel : nat) (s : string) : string :=
  match fuel with
  | O => s
  | S fuel' =>
      match first_prefix whitespace s with
      | Some n => trimStart_fuel fuel' (substring_from n s)
      | None => s
      end
  end.

Definition trimStart (s : string) : string := trimStart_fuel (String.length s) s.

Definition rev (s : string) : string :=
  string_of_list_ascii (List.rev (list_ascii_of_string s)).

Fixpoint first_suffix (ws : list string) (r : string) : option nat :=
  match ws with
  | [] => None
  | w :: ws' => if startsWith (rev w) r then Some (String.length w) else first_suffix ws' r
  end.

Fixpoint trimEnd_fuel (fuel : nat) (r : string) : string :=
  match fuel with
  | O => r
  | S fuel' =>
      match first_suffix whitespace r with
      | Some n => trimEnd_fuel fuel' (substring_from n r)
      | None => r
      end
  end.

Definition trimEnd (s : string) : string :=
  rev (trimEnd_fuel (String.length s) (rev s)).

(** [s.trim()] *)
Definition trim (s : string) : string := trimEnd (trimStart s).

(** [s.split(c)] for a one-character separator: never the empty list. *)
Fixpoint split (sep : ascii) (s : string) : list string :=
  match s with
  | EmptyString => [EmptyString]
  | String c s' =>
      if Ascii.eqb c sep then EmptyString :: split sep s'
      else match split sep s' with
           | [] => [String c EmptyString]
           | h :: t => String c h :: t
           end
  end.

(** [s.replace(/\/+/g, ' ')]: every maximal run of slashes becomes one space. *)
Fixpoint collapse_slashes (in_run : bool) (s : string) : string :=
  match s with
  | EmptyString => EmptyString
  | String c s' =>
      if Ascii.eqb c "/"%char
      then if in_run then collapse_slashes true s'
           else String " "%char (collapse_slashes true s')
      else String c (collapse_slashes false s')
  end.

Definition replace_slash_runs (s : string) : string := collapse_slashes false s.

Definition hex_digit (c : ascii) : option Z :=
  let n := code c in
  if (48 <=? n) && (n <=? 57) then Some (n - 48)
  else if (65 <=? n) && (n <=? 70) then Some (n - 55)
  else if (97 <=? n) && (n <=? 102) then Some (n - 87)
  else None.

Definition dec_digit (c : ascii) : option Z :=
  let n := code c in
  if (48 <=? n) && (n <=? 57) then Some (n - 48) else None.

(** *** decodeURIComponent *)

Inductive token : Type :=
  | Lit (c : ascii)
  | Pct (b : Z)
  | Bad.

Fixpoint tokens (s : string) : list token :=
  match s with
  | EmptyString => []
  | String c s1 =>
      if Ascii.eqb c "%"%char then
        match s1 with
        | String a (String b s3) =>
            match hex_digit a, hex_digit b with
            | Some x, Some y => Pct (16 * x + y) :: tokens s3
            | _, _ => [Bad]
            end
        | _ => [Bad]
        end
      else Lit c :: tokens s1
  end.

(** Decoder state: how many continuation octets are still due, and the
    range the next one has to lie in for the sequence to be the UTF-8
    form of a code point (no overlong form, no surrogate, at most
    U+10FFFF). *)
Record pending : Type := mkPending { due : nat; lo : Z; hi : Z }.

Definition lead (b : Z) : option pending :=
  if (194 <=? b) && (b <=? 223) then Some (mkPending 1 128 191)
  else if b =? 224 then Some (mkPending 2 160 191)
  else if (225 <=? b) && (b <=? 236) then Some (mkPending 2 128 191)
  else if b =? 237 then Some (mkPending 2 128 159)
  else if (238 <=? b) && (b <=? 239) then Some (mkPending 2 128 191)
  else if b =? 240 then Some (mkPending 3 144 191)
  else if (241 <=? b) && (b <=? 243) then Some (mkPending 3 128 191)
  else if b =? 244 then Some (mkPending 3 128 143)
  else None.

Fixpoint decode (ts : list token) (p : pending) : result string :=
  match ts with
  | [] => match due p with O => Ok EmptyString | S _ => Throw URIError end
  | Bad :: _ => Throw URIError
  | Lit c :: ts' =>
      match due p with
      | O => let* r := decode ts' p in Ok (String c r)
      | S _ => Throw URIError
      end
  | Pct b :: ts' =>
      match due p with
      | O =>
          if b <? 128 then let* r := decode ts' p in Ok (String (chr b) r)
          else match lead b with
               | Some q => let* r := decode ts' q in Ok (String (chr b) r)
               | None => Throw URIError
               end
      | S d =>
          if (lo p <=? b) && (b <=? hi p)
          then let* r := decode ts' (mkPending d 128 191) in Ok (String (chr b) r)
          else Throw URIError
      end
  end.

Definition decodeURIComponent (s : string) : result string :=
  decode (tokens s) (mkPending 0 128 191).

(** *** parseInt (no radix argument) *)

Fixpoint digits (radix : Z) (digit : ascii → option Z) (acc : option Z) (s : string)
  : option Z :=
  match s with
  | EmptyString => acc
  | String c s' =>
      match digit c with
      | Some d => digits radix digit (Some (radix * default 0 acc + d)) s'
      | None => acc
      end
  end.

Definition unsigned_int (s : string) : option Z :=
  if startsWith "0x" s || startsWith "0X" s
  then digits 16 hex_digit None (substring_from 2 s)
  else digits 10 dec_digit None s.

(** [parseInt(s)]; [None] is NaN.  The integer is kept exact, where the
    engine rounds magnitudes above 2^53 to the nearest double. *)
Definition parseInt (s : string) : option Z :=
  match trimStart s with
  | String "-"%char s' => Z.opp <$> unsigned_int s'
  | String "+"%char s' => unsigned_int s'
  | s' => unsigned_int s'
  end.

(** Decimal form of a non-negative integer, as in a template literal. *)
Fixpoint to_decimal_fuel (fuel : nat) (n : Z) (acc : string) : string :=
  match fuel with
  | O => acc
  | S fuel' =>
      let acc' := String (chr (48 + n mod 10)) acc in
      if n <? 10 then acc' else to_decimal_fuel fuel' (n / 10) acc'
  end.

Definition to_decimal (n : Z) : string :=
  if n <? 0 then String "-"%char (to_decimal_fuel (Z.to_nat (- n)) (- n) EmptyString)
  else to_decimal_fuel (S (Z.to_nat n)) n EmptyString.

End JsString.

(** ** Data model *)

Inductive param : Type :=
  | PNum (n : Z)
  | PStr (s : string).

Record Step : Type := mkStep { step_type : string; step_params : list param }.

Record Flow : Type := mkFlow { flow_id : string; flow_name : string; flow_steps : list Step }.

(** A Blob or File: [file_name] is [None] for a blob that has no name. *)
Record File : Type := mkFile {
  file_name : option string;
  file_type : string;
  file_data : list Byte.byte }.

(** A FileSystemFileHandle; [grants] tells whether [createWritable()]
    resolves to a writable stream or rejects. *)
Record FsHandle : Type := mkHandle { handle_id : nat; grants : bool }.

(** An entry of [currentImages].  [fsHandlePromise] is what the promise
    resolves to; [None] stands for [null] and for a missing property. *)
Record InputImage : Type := mkInput {
  file : File;
  img_name : option string;
  fsHandlePromise : option FsHandle }.

Record OutputImage : Type := mkOutput { blob : File; out_name : string }.

(** What the UI collaborator is given for one image: the blob behind the
    object URL and the displayed name. *)
Record ImageSource : Type := mkSource { src : File; src_name : option string }.

Inductive Viewer : Type :=
  | FromInputAndOutput (input output : list ImageSource)
  | FromOutput (output : list ImageSource).

(** The share manifest, [await shareDataResponse.json()]. *)
Record ShareData : Type := mkShareData {
  fileCount : Z;
  fileNames : option (list string);
  title : option string;
  url : option string }.

(** An entry of the transfer cache.  [resp_json] is [None] when [json()]
    rejects; [resp_blob] is what [blob()] resolves to. *)
Record Response : Type := mkResponse {
  resp_json : option ShareData;
  resp_blob : File }.

(** What [runFlow] settles to. *)
Inductive EngineResult : Type :=
  | EngineOutputs (outputFiles : list OutputImage)
  | EngineFailure
  | EngineRejects.

(** ** Session state

    Flow objects live in [heap]; the array behind [flowsPromise] is the
    list [flows] of references into it, and [currentFlow] is such a
    reference too, so that a write through one is seen through the other.
    [persisted] is the collection last handed to [saveFlows].
    [engineCalls] logs the arguments of [runFlow], [inFlight] the runs
    whose engine call has not settled, [runsStarted] how many were started.
    [writes] logs what save-in-place wrote, most recent first. *)

#[projections(primitive)]
Record App : Type := MkApp {
  heap : gmap nat Flow;
  flows : list nat;
  persisted : list Flow;
  currentFlow : option nat;
  currentId : option string;
  currentImages : list InputImage;
  outputImages : list OutputImage;
  running : bool;
  runDisabled : bool;
  shownInputs : list ImageSource;
  shownOutputs : list ImageSource * option FsHandle;
  viewer : option Viewer;
  engineCalls : list (option Flow * list File);
  inFlight : list nat;
  runsStarted : nat;
  cache : gmap string Response;
  query : list (string * string);
  timers : nat;
  writes : list (nat * File) }.

Definition set_heap v '(MkApp _ b c d e f g h i j k l m n o p q r s) := MkApp v b c d e f g h i j k l m n o p q r s.
Definition set_flows v '(MkApp a _ c d e f g h i j k l m n o p q r s) := MkApp a v c d e f g h i j k l m n o p q r s.
Definition set_persisted v '(MkApp a b _ d e f g h i j k l m n o p q r s) := MkApp a b v d e f g h i j k l m n o p q r s.
Definition set_currentFlow v '(MkApp a b c _ e f g h i j k l m n o p q r s) := MkApp a b c v e f g h i j k l m n o p q r s.
Definition set_currentId v '(MkApp a b c d _ f g h i j k l m n o p q r s) := MkApp a b c d v f g h i j k l m n o p q r s.
Definition set_currentImages v '(MkApp a b c d e _ g h i j k l m n o p q r s) := MkApp a b c d e v g h i j k l m n o p q r s.
Definition set_outputImages v '(MkApp a b c d e f _ h i j k l m n o p q r s) := MkApp a b c d e f v h i j k l m n o p q r s.
Definition set_running v '(MkApp a b c d e f g _ i j k l m n o p q r s) := MkApp a b c d e f g v i j k l m n o p q r s.
Definition set_runDisabled v '(MkApp a b c d e f g h _ j k l m n o p q r s) := MkApp a b c d e f g h v j k l m n o p q r s.
Definition set_shownInputs v '(MkApp a b c d e f g h i _ k l m n o p q r s) := MkApp a b c d e f g h i v k l m n o p q r s.
Definition set_shownOutputs v '(MkApp a b c d e f g h i j _ l m n o p q r s) := MkApp a b c d e f g h i j v l m n o p q r s.
Definition set_viewer v '(MkApp a b c d e f g h i j k _ m n o p q r s) := MkApp a b c d e f g h i j k v m n o p q r s.
Definition set_engineCalls v '(MkApp a b c d e f g h i j k l _ n o p q r s) := MkApp a b c d e f g h i j k l v n o p q r s.
Definition set_inFlight v '(MkApp a b c d e f g h i j k l m _ o p q r s) := MkApp a b c d e f g h i j k l m v o p q r s.
Definition set_runsStarted v '(MkApp a b c d e f g h i j k l m n _ p q r s) := MkApp a b c d e f g h i j k l m n v p q r s.
Definition set_cache v '(MkApp a b c d e f g h i j k l m n o _ q r s) := MkApp a b c d e f g h i j k l m n o v q r s.
Definition set_query v '(MkApp a b c d e f g h i j k l m n o p _ r s) := MkApp a b c d e f g h i j k l m n o p v r s.
Definition set_timers v '(MkApp a b c d e f g h i j k l m n o p q _ s) := MkApp a b c d e f g h i j k l m n o p q v s.
Definition set_writes v '(MkApp a b c d e f g h i j k l m n o p q r _) := MkApp a b c d e f g h i j k l m n o p q r v.

(** ** Handlers as state transformers that may throw

    A thrown exception keeps the writes made before it. *)

Definition M (A : Type) : Type := App → App * result A.

Definition ret {A} (a : A) : M A := fun s => (s, Ok a).
Definition throw {A} (e : exn) : M A := fun s => (s, Throw e).
Definition bind {A B} (m : M A) (k : A → M B) : M B :=
  fun s => match m s with
           | (s', Ok a) => k a s'
           | (s', Throw e) => (s', Throw e)
           end.
Definition gets {A} (f : App → A) : M A := fun s => (s, Ok (f s)).
Definition modify (f : App → App) : M unit := fun s => (f s, Ok tt).
Definition lift {A} (r : result A) : M A := fun s => (s, r).

Notation "x <- m ;; k" := (bind m (fun x => k))
  (at level 100, m at next level, right associativity).
Notation "m ;;; k" := (bind m (fun _ => k))
  (at level 100, right associativity).

(** ** Flow collection (store.js is a collaborator)

    Every reference denotes an object; [deref] reads it. *)

Definition deref (h : gmap nat Flow) (r : nat) : Flow :=
  default (mkFlow "" "" []) (h !! r).

(** The collection as the store serialises it. *)
Definition snapshot (s : App) : list Flow := deref (heap s) <$> flows s.

(** [await saveFlows(flows)] on the session's array. *)
Definition saveFlows : M unit := modify (fun s => set_persisted (snapshot s) s).

(** [flows.find(f => P(f))] / [flows.findIndex(f => P(f))]: index and
    reference of the first flow satisfying [P]. *)
Definition find_flow (P : Flow → Prop) `{∀ f, Decision (P f)} (s : App) : option (nat * nat) :=
  list_find (fun r => P (deref (heap s) r)) (flows s).

(** [flows[flowIndex] = r]; with [flowIndex === -1] the assignment adds a
    property named "-1" to the array and changes none of its elements. *)
Definition assign_at (i : option (nat * nat)) (r : nat) (fl : list nat) : list nat :=
  match i with
  | Some (flowIndex, _) => <[flowIndex := r]> fl
  | None => fl
  end.

(** A reference no live object has: the identity of a new object literal. *)
Definition new_ref (s : App) : nat :=
  fresh (dom (heap s) ∪ list_to_set (flows s) ∪ list_to_set (option_list (currentFlow s)) : gset nat).

Definition navigateToHome : M unit :=
  modify (fun s => set_currentId None (set_currentFlow None s)).

(** Ids are strings ([navigateToFlow(newFlow.id)] is compared with
    [f.id + ''] by [===]), so [f.id + ''] is [f.id]. *)
Definition navigateToFlow (id : string) : M unit :=
  modify (set_currentId (Some id));;;
  modify (fun s => set_currentFlow (snd <$> find_flow (fun f => id = flow_id f) s) s);;;
  c <- gets currentFlow;;
  match c with
  | None => navigateToHome
  | Some _ => ret tt
  end.

(** The editor form as read from the DOM: per step element its
    [dataset.type] and the values of its inputs, and the name field. *)
Record EditorForm : Type := mkForm {
  form_steps : list (string * list string);
  form_name : string }.

Definition read_steps (form : EditorForm) : list Step :=
  map (fun '(t, vs) => mkStep t (map PStr vs)) (form_steps form).

Definition with_steps (st : list Step) (f : Flow) : Flow := mkFlow (flow_id f) (flow_name f) st.
Definition with_name (n : string) (f : Flow) : Flow := mkFlow (flow_id f) n (flow_steps f).

(** [o.field = v] on the object behind [r]. *)
Definition mutate (r : nat) (g : Flow → Flow) : M unit :=
  modify (fun s => set_heap (<[r := g (deref (heap s) r)]> (heap s)) s).

Definition handleFlowChange (form : EditorForm) : M unit :=
  let steps := read_steps form in
  c <- gets currentFlow;;
  match c with
  | None => throw TypeError
  | Some cur =>
      mutate cur (with_steps steps);;;
      mutate cur (with_name (form_name form));;;
      modify (fun s =>
        let flowIndex := find_flow (fun f => flow_id f = flow_id (deref (heap s) cur)) s in
        set_flows (assign_at flowIndex cur (flows s)) s);;;
      saveFlows
  end.

(** [createNewFlow(name, steps)]; [uid] is what [getUniqueId()] returns.
    The result is the reference of the new flow. *)
Definition createNewFlow (uid : string) (name : string) (steps : list Step) : M nat :=
  r <- gets new_ref;;
  let newFlow := mkFlow uid (if decide (name = "") then "Untitled flow" else name) steps in
  modify (fun s => set_heap (<[r := newFlow]> (heap s)) s);;;
  modify (fun s => set_flows (flows s ++ [r]) s);;;
  saveFlows;;;
  navigateToFlow uid;;;
  ret r.

Definition createOrNavigateToFlow (uid : string) (flowTitle : string) (flowSteps : list Step)
  : M nat :=
  existingFlow <- gets (find_flow (fun flow => flow_name flow = flowTitle));;
  match existingFlow with
  | Some (_, existing) =>
      mutate existing (with_steps flowSteps);;;
      modify (fun s =>
        let flowIndex := find_flow (fun flow => flow_id flow = flow_id (deref (heap s) existing)) s in
        set_flows (assign_at flowIndex existing (flows s)) s);;;
      saveFlows;;;
      id <- gets (fun s => flow_id (deref (heap s) existing));;
      navigateToFlow id;;;
      ret existing
  | None => createNewFlow uid flowTitle flowSteps
  end.

(** ** Run orchestrator (flow-runner.js is a collaborator) *)

Definition source_of_output (o : OutputImage) : ImageSource :=
  mkSource (blob o) (Some (out_name o)).

Definition source_of_input (i : InputImage) : ImageSource :=
  mkSource (file i) (file_name (file i)).

(** [!name] *)
Definition falsy (n : option string) : bool :=
  match n with
  | None => true
  | Some s => bool_decide (s = "")
  end.

(** [if (!i.file.name) { i.file.name = i.name; }] on the image's own file
    object.  The property is taken to be writable, as it is on the blobs
    that come back from the engine and have no name yet. *)
Definition name_file (i : InputImage) : InputImage :=
  if falsy (file_name (file i))
  then mkInput (mkFile (img_name i) (file_type (file i)) (file_data (file i)))
               (img_name i) (fsHandlePromise i)
  else i.

(** The click listener of the run button up to [await runFlow(...)]: the
    engine is called and the run joins [inFlight] under a fresh number. *)
Definition runFlowButton_click : M unit :=
  imgs <- gets currentImages;;
  match imgs with
  | [] => ret tt
  | _ :: _ =>
      modify (set_shownOutputs ([], None));;;
      modify (set_running true);;;
      modify (set_runDisabled true);;;
      modify (fun s => set_currentImages (map name_file (currentImages s)) s);;;
      modify (fun s =>
        set_engineCalls ((deref (heap s) <$> currentFlow s, map file (currentImages s))
                         :: engineCalls s) s);;;
      modify (fun s => set_inFlight (runsStarted s :: inFlight s) s);;;
      modify (fun s => set_runsStarted (S (runsStarted s)) s)
  end.

(** The rest of the listener, once the engine call has settled with
    [processedFiles]. *)
Definition runFlowButton_resume (processedFiles : EngineResult) : M unit :=
  match processedFiles with
  | EngineRejects => throw Rejected
  | EngineOutputs outputFiles =>
      modify (set_outputImages outputFiles);;;
      imgs <- gets currentImages;;
      match imgs with
      | [] => throw TypeError
      | first :: _ =>
          modify (set_shownOutputs (map source_of_output outputFiles, fsHandlePromise first))
      end
  | EngineFailure => ret tt
  end;;;
  modify (set_running false);;;
  modify (set_runDisabled false).

(** ** Input images *)

Definition populateInputImages (imgs : list InputImage) : M unit :=
  modify (set_shownInputs (map source_of_input imgs)).

(** The drop listener, given what [extractImagesFromDataTransfer] found. *)
Definition drop (images : list InputImage) : M unit :=
  match images with
  | [] => ret tt
  | _ :: _ => modify (set_currentImages images);;; populateInputImages images
  end.

(** The browse and random-image listeners, given the images they built. *)
Definition browseImagesButton_click (imagesToStore : list InputImage) : M unit :=
  modify (set_currentImages imagesToStore);;; populateInputImages imagesToStore.

Definition removeInputButton_click : M unit :=
  modify (set_currentImages []);;;
  populateInputImages [];;;
  modify (set_runDisabled true).

Definition hasImagesToSave (s : App) : bool := negb (length (outputImages s) =? 0)%nat.

(** ** Save in place *)

(** The body of [for (const outputImage of outputImages)]. *)
Fixpoint save_loop (outs : list OutputImage) : M unit :=
  match outs with
  | [] => ret tt
  | outputImage :: rest =>
      imgs <- gets currentImages;;
      match List.find (fun i => bool_decide (file_name (file i) = Some (out_name outputImage))) imgs with
      | None => throw TypeError
      | Some i =>
          match fsHandlePromise i with
          | None => throw TypeError
          | Some handle =>
              if grants handle
              then modify (fun s => set_writes ((handle_id handle, blob outputImage) :: writes s) s);;;
                   save_loop rest
              else throw Rejected
          end
      end
  end.

Definition saveImagesButton_click : M unit :=
  has <- gets hasImagesToSave;;
  if negb has then ret tt
  else
    s <- gets (fun s => s);;
    if negb (length (currentImages s) =? length (outputImages s))%nat then ret tt
    else save_loop (outputImages s).

Definition useOutputAsInputButton_click : M unit :=
  has <- gets hasImagesToSave;;
  if negb has then ret tt
  else
    modify (fun s =>
      set_currentImages (map (fun img => mkInput (blob img) (Some (out_name img)) None)
                             (outputImages s)) s);;;
    modify (set_outputImages []);;;
    modify (fun s => set_shownInputs (map (fun image => mkSource (file image) (img_name image))
                                          (currentImages s)) s);;;
    modify (set_shownOutputs ([], None)).

(** ** Image viewer *)

(** [Array.prototype.sort] with a comparator that may throw: a stable
    insertion sort; an element goes before the first one it does not
    compare greater than.  Which pairs are compared is the engine's
    choice; when no comparison throws and the comparator is consistent
    the result does not depend on it. *)
Fixpoint insert_by {A} (cmp : A → A → result Z) (x : A) (l : list A) : result (list A) :=
  match l with
  | [] => Ok [x]
  | y :: l' =>
      let* c := cmp x y in
      if c <=? 0 then Ok (x :: y :: l')
      else let* r := insert_by cmp x l' in Ok (y :: r)
  end.

Fixpoint sort_by {A} (cmp : A → A → result Z) (l : list A) : result (list A) :=
  match l with
  | [] => Ok []
  | x :: l' => let* sorted := sort_by cmp l' in insert_by cmp x sorted
  end.

Section Viewer.

(** [String.prototype.localeCompare] under the host's collation. *)
Variable localeCompare : string → string → Z.

(** [(a, b) => a.name.localeCompare(b.name)] *)
Definition compare_outputs (a b : OutputImage) : result Z :=
  Ok (localeCompare (out_name a) (out_name b)).

(** [(a, b) => a.file.name.localeCompare(b.file.name)]: a missing
    [a.file.name] throws, a missing [b.file.name] reads "undefined". *)
Definition compare_inputs (a b : InputImage) : result Z :=
  match file_name (file a) with
  | None => Throw TypeError
  | Some x => Ok (localeCompare x (default "undefined" (file_name (file b))))
  end.

Definition viewImagesButton_click : M unit :=
  has <- gets hasImagesToSave;;
  if negb has then ret tt
  else
    outs <- gets outputImages;;
    sorted_out <- lift (sort_by compare_outputs outs);;
    modify (set_outputImages sorted_out);;;
    let output := map source_of_output sorted_out in
    imgs <- gets currentImages;;
    sorted_in <- lift (sort_by compare_inputs imgs);;
    modify (set_currentImages sorted_in);;;
    let input := map source_of_input sorted_in in
    modify (set_viewer (Some (if (length input =? length output)%nat
                              then FromInputAndOutput input output
                              else FromOutput output))).

End Viewer.

(** ** Intent resolver *)

Definition scheme : string := "web+wami://".

Definition resize_step (width : Z) : list Step :=
  [mkStep "resize-width-if-larger" [PNum width]].

(** [parseInt(pathParts[1]) || 1000]: NaN and 0 are falsy. *)
Definition width_of (segment : option string) : Z :=
  match segment ≫= JsString.parseInt with
  | Some w => if w =? 0 then 1000 else w
  | None => 1000
  end.

(** [parseWebWamiUrl(url)]; [None] is the [null] result. *)
Definition parseWebWamiUrl (url : string) : result (option (string * list Step)) :=
  let urlPath := JsString.substring_from (String.length scheme) url in
  if bool_decide (urlPath = "") || bool_decide (JsString.trim urlPath = "") then Ok None
  else
    let pathParts := JsString.split "/" (default "" (head (JsString.split "?" urlPath))) in
    let mainCommand := JsString.toLowerCase (default "" (head pathParts)) in
    let* decoded := JsString.decodeURIComponent urlPath in
    let title := JsString.trim (JsString.replace_slash_runs decoded) in
    let steps :=
      if JsString.includes "rotate" mainCommand then [mkStep "rotate" [PNum 90]]
      else if JsString.includes "flip" mainCommand then [mkStep "flip" []]
      else if JsString.includes "paint" mainCommand then [mkStep "paint" [PNum 5]]
      else if JsString.includes "sepia" mainCommand then [mkStep "sepia-tone" [PNum 80]]
      else if JsString.includes "blur" mainCommand then [mkStep "blur" [PNum 3]]
      else if JsString.includes "negate" mainCommand then [mkStep "negate" []]
      else if JsString.includes "resize" mainCommand then resize_step (width_of (pathParts !! 1%nat))
      else resize_step 1000 in
    Ok (Some (title, steps)).

(** [shareData.title || 'Shared Images Flow'] *)
Definition default_title (shareData : ShareData) : string :=
  match title shareData with
  | Some t => if decide (t = "") then "Shared Images Flow" else t
  | None => "Shared Images Flow"
  end.

Definition determineFlowConfiguration (shareData : ShareData) : result (string * list Step) :=
  let flowTitle := default_title shareData in
  let flowSteps := resize_step 1000 in
  match url shareData with
  | Some u =>
      if negb (falsy (Some u)) && negb (bool_decide (JsString.trim u = "")) then
        let url := JsString.trim u in
        if JsString.startsWith scheme url then
          let* result := parseWebWamiUrl url in
          match result with
          | Some (t, st) => Ok (t, st)
          | None => Ok (flowTitle, flowSteps)
          end
        else Ok (flowTitle, flowSteps)
      else Ok (flowTitle, flowSteps)
  | None => Ok (flowTitle, flowSteps)
  end.

(** ** Share-target consumer (the Cache API is a collaborator) *)

Definition manifest_key : string := "shareData".

(** [`file-${i}`] *)
Definition file_key (i : Z) : string := "file-" ++ JsString.to_decimal i.

Definition extensions : gmap string string :=
  list_to_map [ ("image/jpeg", "jpg"); ("image/png", "png"); ("image/gif", "gif");
                ("image/webp", "webp"); ("image/svg+xml", "svg") ].

(** [extensions[mimeType] || 'jpg'].  A blob's type is empty or a MIME
    type with a slash in it, so it never names a property that the table
    inherits from [Object.prototype]. *)
Definition getFileExtension (mimeType : string) : string :=
  default "jpg" (extensions !! mimeType).

(** The name given to the file read at index [i]. *)
Definition shared_file_name (shareData : ShareData) (i : Z) (blob : File) : string :=
  let fallback := "shared-" ++ JsString.to_decimal (i + 1) ++ "." ++ getFileExtension (file_type blob) in
  match fileNames shareData ≫= (fun names => names !! Z.to_nat i) with
  | Some n => if falsy (Some n) then fallback else n
  | None => fallback
  end.

Definition shared_image (shareData : ShareData) (i : Z) (fileResponse : Response) : InputImage :=
  let blob := resp_blob fileResponse in
  let fileName := shared_file_name shareData i blob in
  mkInput (mkFile (Some fileName) (file_type blob) (file_data blob)) (Some fileName) None.

(** [for (let i = ...; i < shareData.fileCount; i++)] with [todo]
    iterations left, pushing onto [imagesToStore]. *)
Fixpoint load_loop (shareData : ShareData) (todo : nat) (i : Z) (imagesToStore : list InputImage)
  : M (list InputImage) :=
  match todo with
  | O => ret imagesToStore
  | S todo' =>
      fileResponse <- gets (fun s => cache s !! file_key i);;
      match fileResponse with
      | Some resp => load_loop shareData todo' (i + 1) (imagesToStore ++ [shared_image shareData i resp])
      | None => load_loop shareData todo' (i + 1) imagesToStore
      end
  end.

Definition loadAndProcessSharedImages (shareData : ShareData) : M unit :=
  imagesToStore <- load_loop shareData (Z.to_nat (fileCount shareData)) 0 [];;
  match imagesToStore with
  | [] => ret tt
  | _ :: _ =>
      modify (set_currentImages imagesToStore);;;
      populateInputImages imagesToStore;;;
      modify (fun s => set_timers (S (timers s)) s)
  end.

Fixpoint cleanup_loop (todo : nat) (i : Z) : M unit :=
  match todo with
  | O => ret tt
  | S todo' =>
      modify (fun s => set_cache (delete (file_key i) (cache s)) s);;;
      cleanup_loop todo' (i + 1)
  end.

Definition cleanupShareCache (shareData : ShareData) : M unit :=
  modify (fun s => set_cache (delete manifest_key (cache s)) s);;;
  cleanup_loop (Z.to_nat (fileCount shareData)) 0.

(** How control leaves the [try] block: off its end, or by [return]. *)
Inductive completion : Type :=
  | Completed
  | Returned.

(** [urlParams.get('share') === 'true'] *)
Definition isShared (s : App) : bool :=
  bool_decide (snd <$> List.find (fun kv => bool_decide (fst kv = "share")) (query s) = Some "true").

(** The [try] block of [processShareTargetData]. *)
Definition share_try (uid : string) : M completion :=
  shareDataResponse <- gets (fun s => cache s !! manifest_key);;
  match shareDataResponse with
  | None => ret Returned
  | Some resp =>
      match resp_json resp with
      | None => throw SyntaxError
      | Some shareData =>
          if fileCount shareData <=? 0 then ret Returned
          else
            config <- lift (determineFlowConfiguration shareData);;
            targetFlow <- createOrNavigateToFlow uid (fst config) (snd config);;
            loadAndProcessSharedImages shareData;;;
            cleanupShareCache shareData;;;
            ret Completed
      end
  end.

(** [window.history.replaceState({}, document.title, window.location.pathname)] *)
Definition scrub_url (s : App) : App := set_query [] s.

Definition processShareTargetData (uid : string) (s : App) : App :=
  if negb (isShared s) then s
  else
    match share_try uid s with
    | (s', Ok Returned) => s'
    | (s', Ok Completed) => scrub_url s'
    | (s', Throw _) => scrub_url s'
    end.

(** ** Event loop

    A listener runs to its end or to its first uncaught exception; either
    way the writes it made stay.  The run button is a form control: while
    it is disabled neither a user click nor [runFlowButton.click()]
    reaches its listener.  The UI collaborator only records what it is
    asked to display. *)

Definition listener (m : M unit) (s : App) : App := fst (m s).

Definition click_runFlowButton (s : App) : App :=
  if runDisabled s then s else listener runFlowButton_click s.

(** The engine call of run [k] settles. *)
Definition settle (k : nat) (r : EngineResult) (s : App) : App :=
  if decide (k ∈ inFlight s)
  then listener (runFlowButton_resume r)
                (set_inFlight (filter (fun j => j ≠ k) (inFlight s)) s)
  else s.

(** The callback of [setTimeout(() => { runFlowButton.click(); }, 500)]. *)
Definition timer_fires (s : App) : App :=
  match timers s with
  | O => s
  | S n => click_runFlowButton (set_timers n s)
  end.

Inductive event : Type :=
  | RunClick
  | TimerFires
  | Settles (k : nat) (r : EngineResult)
  | Drop (images : list InputImage)
  | Browse (images : list InputImage)
  | RemoveInput
  | Save
  | UseOutputAsInput
  | View
  | FlowChange (form : EditorForm)
  | FlowLink (id : string)
  | HomeLink
  | Launch (uid : string).

Section EventLoop.

Variable localeCompare : string → string → Z.

Definition step (s : App) (ev : event) : App :=
  match ev with
  | RunClick => click_runFlowButton s
  | TimerFires => timer_fires s
  | Settles k r => settle k r s
  | Drop images => listener (drop images) s
  | Browse images => listener (browseImagesButton_click images) s
  | RemoveInput => listener removeInputButton_click s
  | Save => listener saveImagesButton_click s
  | UseOutputAsInput => listener useOutputAsInputButton_click s
  | View => listener (viewImagesButton_click localeCompare) s
  | FlowChange form => listener (handleFlowChange form) s
  | FlowLink id => listener (navigateToFlow id) s
  | HomeLink => listener navigateToHome s
  | Launch uid => processShareTargetData uid s
  end.


End EventLoop.

(** ** Specification-side definitions *)

(** [canSaveInPlace] as the specification words it: equal counts, and
    every output's name is the file name of some input whose handle is
    present. *)
Definition spec_canSaveInPlace (inputs : list InputImage) (outputs : list OutputImage) : bool :=
  (length inputs =? length outputs)%nat &&
  forallb (fun o =>
    existsb (fun i => bool_decide (file_name (file i) = Some (out_name o)) &&
                      bool_decide (is_Some (fsHandlePromise i))) inputs) outputs.

(** Where an output is written: the handle of the first input bearing its
    name, when that handle is present and grants a writable stream. *)
Definition save_target (inputs : list InputImage) (o : OutputImage) : option nat :=
  i ← List.find (fun i => bool_decide (file_name (file i) = Some (out_name o))) inputs;
  h ← fsHandlePromise i;
  if grants h then Some (handle_id h) else None.

(** The writes for the longest prefix of the outputs that all have a
    target, in order. *)
Fixpoint saved_prefix (inputs : list InputImage) (outputs : list OutputImage)
  : list (nat * File) :=
  match outputs with
  | [] => []
  | o :: rest =>
      match save_target inputs o with
      | Some h => (h, blob o) :: saved_prefix inputs rest
      | None => []
      end
  end.

(** The order the viewer leaves a list in. *)
Definition name_le (localeCompare : string → string → Z) (a b : string) : Prop :=
  localeCompare a b <= 0.

Definition input_name (i : InputImage) : string := default "undefined" (file_name (file i)).

(** A file that bears a non-empty name. *)
Definition named (i : InputImage) : Prop := falsy (file_name (file i)) = false.

(** Code-unit order, one possible collation. *)
Definition codeUnitCompare (a b : string) : Z :=
  match String.compare a b with
  | Lt => -1
  | Eq => 0
  | Gt => 1
  end.

(** ** Sample states *)

Definition empty_app : App :=
  MkApp ∅ [] [] None None [] [] false false [] ([], None) None [] [] 0 ∅ [] 0 [].

Definition png (bytes : list Byte.byte) : File := mkFile None "image/png" bytes.

Definition picked (name : string) (h : option FsHandle) : InputImage :=
  mkInput (mkFile (Some name) "image/png" []) None h.

Definition two_flows : App :=
  set_flows [0; 1]%nat
    (set_heap (<[0%nat := mkFlow "f1" "Untitled flow" []]>
               (<[1%nat := mkFlow "f2" "resize 250" [mkStep "blur" [PNum 3]]]> ∅))
      (set_persisted [mkFlow "f1" "Untitled flow" []; mkFlow "f2" "resize 250" [mkStep "blur" [PNum 3]]]
         empty_app)).

Definition shared (manifest : ShareData) (blobs : list (string * Response)) : App :=
  set_query [("share", "true")]
    (set_cache (<[manifest_key := mkResponse (Some manifest) (mkFile None "application/json" [])]>
                  (list_to_map blobs)) two_flows).

(** ** Handler properties used by the proofs *)

(** [m] leaves the observation [f] of the state as it was. *)
Definition preserves {A X} (f : App → X) (m : M A) : Prop :=
  ∀ s, f (fst (m s)) = f s.

(** [m] never throws. *)
Definition never_throws {A} (m : M A) : Prop :=
  ∀ s, ∃ a, snd (m s) = Ok a.

(** What the single-flight argument looks at. *)
Definition run_view (s : App) : list nat * bool * nat * (list ImageSource * option FsHandle) :=
  (inFlight s, runDisabled s, runsStarted s, shownOutputs s).

(** The invariant of the run orchestrator: at most one run awaits the
    engine, the run button is disabled while one does, and it is the run
    started last. *)
Definition single_flight (s : App) : Prop :=
  (length (inFlight s) ≤ 1)%nat ∧
  (inFlight s ≠ [] → runDisabled s = true) ∧
  (∀ k, k ∈ inFlight s → runsStarted s = S k).

(** One image picked without a handle, and the run button clicked. *)
Definition one_run_started : App :=
  click_runFlowButton (set_currentImages [picked "b.png" None] empty_app).

(** Two inputs, only the first with a write handle; the engine returned
    an output for the first and one under a name no input bears. *)
Definition half_saveable : App :=
  set_outputImages [mkOutput (png [Byte.x01]) "a.png"; mkOutput (png [Byte.x02]) "c.png"]
    (set_currentImages [picked "a.png" (Some (mkHandle 7 true)); picked "b.png" None]
       empty_app).

(** Outputs and inputs in the order b, a. *)
Definition unsorted_pair : App :=
  set_outputImages [mkOutput (png [Byte.x02]) "b.png"; mkOutput (png [Byte.x01]) "a.png"]
    (set_currentImages [picked "b.png" None; picked "a.png" None] empty_app).

(** Share transfers: two files resolved through a resize URL; one whose
    URL has a stray percent sign; one whose only file name is empty. *)
Definition manifest_250 : ShareData :=
  mkShareData 2 (Some ["cat.png"]) None (Some "web+wami://resize/250").

Definition shared_250 : App :=
  shared manifest_250
    [ (file_key 0, mkResponse None (png [Byte.x01]));
      (file_key 1, mkResponse None (mkFile None "image/webp" [Byte.x02])) ].

Definition manifest_bad_url : ShareData :=
  mkShareData 1 None None (Some "web+wami://%").

Definition shared_bad_url : App :=
  shared manifest_bad_url [(file_key 0, mkResponse None (png [Byte.x01]))].

Definition manifest_blank_name : ShareData := mkShareData 1 (Some [""]) None None.

Definition shared_blank_name : App :=
  shared manifest_blank_name [(file_key 0, mkResponse None (png [Byte.x01]))].

(** A launch with the share flag and nothing staged, and one whose
    manifest lists no file. *)
Definition launched_without_manifest : App := set_query [("share", "true")] two_flows.

Definition launched_without_files : App := shared (mkShareData 0 None None None) [].

(** The editor holding the second of the two flows. *)
Definition editing_second : App := set_currentId (Some "f2") (set_currentFlow (Some 1%nat) two_flows).

(** ** Flow list buttons *)

(** The listener of the add-flow button; [uid] is what [getUniqueId()]
    returns. *)
Definition addFlowButton_click (uid : string) : M unit :=
  r <- gets new_ref;;
  let newFlow := mkFlow uid "Untitled flow" [] in
  modify (fun s => set_heap (<[r := newFlow]> (heap s)) s);;;
  modify (fun s => set_flows (flows s ++ [r]) s);;;
  saveFlows;;;
  navigateToFlow uid.

(** [flows.splice(flowIndex, 1)]: with [flowIndex === -1] the start is
    counted from the end and the last element goes. *)
Definition splice_one (flowIndex : option (nat * nat)) (fl : list nat) : list nat :=
  match flowIndex with
  | Some (i, _) => delete i fl
  | None => delete (length fl - 1)%nat fl
  end.

(** The listener of the delete-flow button.  [currentFlow.id] is read in
    the callback of [findIndex], that is once per element: with no
    current flow it throws unless the collection is empty. *)
Definition deleteFlowButton_click : M unit :=
  fl <- gets flows;;
  c <- gets currentFlow;;
  flowIndex <-
    match c, fl with
    | Some cur, _ =>
        gets (fun s => find_flow (fun f => flow_id f = flow_id (deref (heap s) cur)) s)
    | None, [] => ret None
    | None, _ :: _ => throw TypeError
    end;;
  modify (fun s => set_flows (splice_one flowIndex (flows s)) s);;;
  saveFlows;;;
  navigateToHome.

(** ** Protocol activation *)

(** [searchParams.get(k)]: the value of the first parameter named [k]. *)
Definition get_param (k : string) (q : list (string * string)) : option string :=
  snd <$> List.find (fun kv => bool_decide (fst kv = k)) q.

(** [logProtocolActivation()]: when the [url] parameter starts with
    web+wami: every parameter of that name is deleted and the location
    is replaced by what is left. *)
Definition logProtocolActivation (s : App) : App :=
  match get_param "url" (query s) with
  | Some protocolUrl =>
      if negb (falsy (Some protocolUrl)) && JsString.startsWith "web+wami:" protocolUrl
      then set_query (filter (fun kv => fst kv ≠ "url") (query s)) s
      else s
  | None => s
  end.

(** [startApp()] after the flow list is shown. *)
Definition startApp (uid : string) (s : App) : App :=
  logProtocolActivation (processShareTargetData uid s).

(** The ids of the collection, in order. *)
Definition flow_ids (s : App) : list string := flow_id <$> snapshot s.

(** No input has a write handle. *)
Definition handleless (imgs : list InputImage) : Prop :=
  Forall (fun i => fsHandlePromise i = None) imgs.

(** The characters of a string. *)
Definition chars (s : string) : list ascii := list_ascii_of_string s.

(** [m] keeps the state property [P]. *)
Definition keeps {A} (P : App → Prop) (m : M A) : Prop :=
  ∀ s, P s → P (fst (m s)).

(** The current flow, when there is one, is an element of the collection. *)
Definition current_attached (s : App) : Prop :=
  ∀ c, currentFlow s = Some c → c ∈ flows s.

(** The collection and the current flow, as references. *)
Definition flow_view (s : App) : list nat * option nat := (flows s, currentFlow s).

(** What the flow list buttons leave alone. *)
Definition session_view (s : App) :=
  (run_view s, currentImages s, outputImages s, engineCalls s,
   cache s, query s, timers s, writes s).

(** * Properties *)

(** ** State updates *)

Lemma setters_set (s : App) :
  (∀ v, heap (set_heap v s) = v) ∧ (∀ v, flows (set_flows v s) = v) ∧
  (∀ v, persisted (set_persisted v s) = v) ∧
  (∀ v, currentFlow (set_currentFlow v s) = v) ∧
  (∀ v, currentId (set_currentId v s) = v) ∧
  (∀ v, currentImages (set_currentImages v s) = v) ∧
  (∀ v, outputImages (set_outputImages v s) = v) ∧
  (∀ v, running (set_running v s) = v) ∧
  (∀ v, runDisabled (set_runDisabled v s) = v) ∧
  (∀ v, shownInputs (set_shownInputs v s) = v) ∧
  (∀ v, shownOutputs (set_shownOutputs v s) = v) ∧
  (∀ v, viewer (set_viewer v s) = v) ∧
  (∀ v, engineCalls (set_engineCalls v s) = v) ∧
  (∀ v, inFlight (set_inFlight v s) = v) ∧
  (∀ v, runsStarted (set_runsStarted v s) = v) ∧
  (∀ v, cache (set_cache v s) = v) ∧ (∀ v, query (set_query v s) = v) ∧
  (∀ v, timers (set_timers v s) = v) ∧ (∀ v, writes (set_writes v s) = v).
Proof. by split_and!. Qed.

(** Writing back what a field holds changes nothing. *)
Lemma setters_id (s : App) :
  set_heap (heap s) s = s ∧ set_flows (flows s) s = s ∧
  set_persisted (persisted s) s = s ∧ set_currentFlow (currentFlow s) s = s ∧
  set_currentId (currentId s) s = s ∧ set_currentImages (currentImages s) s = s ∧
  set_outputImages (outputImages s) s = s ∧ set_running (running s) s = s ∧
  set_runDisabled (runDisabled s) s = s ∧ set_shownInputs (shownInputs s) s = s ∧
  set_shownOutputs (shownOutputs s) s = s ∧ set_viewer (viewer s) s = s ∧
  set_engineCalls (engineCalls s) s = s ∧ set_inFlight (inFlight s) s = s ∧
  set_runsStarted (runsStarted s) s = s ∧ set_cache (cache s) s = s ∧
  set_query (query s) s = s ∧ set_timers (timers s) s = s ∧
  set_writes (writes s) s = s.
Proof. by split_and!. Qed.

(** ** The handler monad *)

Lemma bind_run {A B} (m : M A) (k : A → M B) s s' a :
  m s = (s', Ok a) → bind m k s = k a s'.
Proof. intros E. unfold bind. by rewrite E. Qed.

Lemma bind_throw {A B} (m : M A) (k : A → M B) s s' e :
  m s = (s', Throw e) → bind m k s = (s', Throw e).
Proof. intros E. unfold bind. by rewrite E. Qed.

Lemma preserves_ret {A X} (f : App → X) (a : A) : preserves f (ret a).
Proof. by intros s. Qed.

Lemma preserves_throw {A X} (f : App → X) e : preserves f (throw (A := A) e).
Proof. by intros s. Qed.

Lemma preserves_gets {A X} (f : App → X) (g : App → A) : preserves f (gets g).
Proof. by intros s. Qed.

Lemma preserves_lift {A X} (f : App → X) (r : result A) : preserves f (lift r).
Proof. by intros s. Qed.

Lemma preserves_modify {X} (f : App → X) (g : App → App) :
  (∀ s, f (g s) = f s) → preserves f (modify g).
Proof. intros H s. apply H. Qed.

Lemma preserves_bind {A B X} (f : App → X) (m : M A) (k : A → M B) :
  preserves f m → (∀ a, preserves f (k a)) → preserves f (bind m k).
Proof.
  intros Hm Hk s. unfold bind. specialize (Hm s).
  destruct (m s) as [s' [a|e]]; simpl in *.
  - by rewrite Hk.
  - done.
Qed.

Lemma never_throws_ret {A} (a : A) : never_throws (ret a).
Proof. intros s. by exists a. Qed.

Lemma never_throws_gets {A} (g : App → A) : never_throws (gets g).
Proof. intros s. by eexists. Qed.

Lemma never_throws_modify (g : App → App) : never_throws (modify g).
Proof. intros s. by exists tt. Qed.

Lemma never_throws_bind {A B} (m : M A) (k : A → M B) :
  never_throws m → (∀ a, never_throws (k a)) → never_throws (bind m k).
Proof.
  intros Hm Hk s. unfold bind. destruct (Hm s) as [a Ha].
  destruct (m s) as [s' r]; simpl in *; subst r. apply Hk.
Qed.

Lemma never_throws_run {A} (m : M A) s : never_throws m → ∃ s' a, m s = (s', Ok a).
Proof.
  intros H. destruct (H s) as [a Ha]. destruct (m s) as [s' r]; simpl in *; subst.
  by exists s', a.
Qed.

(** Frame conditions are proved by walking through the handler. *)
Ltac frame_step :=
  first
    [ solve [eauto]
    | apply preserves_ret | apply preserves_throw | apply preserves_gets
    | apply preserves_lift
    | apply preserves_modify; intros ?; reflexivity
    | apply preserves_bind; [| intros ?] ].

Ltac never_throws_step :=
  first
    [ solve [eauto]
    | apply never_throws_ret | apply never_throws_gets | apply never_throws_modify
    | apply never_throws_bind; [| intros ?] ].

Ltac case_branch :=
  match goal with
  | |- context [match ?x with _ => _ end] => destruct x
  end.

Ltac frame := repeat (first [frame_step | case_branch]).
Ltac totality := repeat (first [never_throws_step | case_branch]).

(** ** Frame conditions *)

Section Frames.

Variable localeCompare : string → string → Z.




Lemma createOrNavigateToFlow_cache uid t st :
  preserves cache (createOrNavigateToFlow uid t st).
Proof.
  assert (∀ id, preserves cache (navigateToFlow id))
    by (intros; unfold navigateToFlow, navigateToHome; frame).
  unfold createOrNavigateToFlow, createNewFlow, mutate, saveFlows. frame.
Qed.

Lemma createOrNavigateToFlow_total uid t st : never_throws (createOrNavigateToFlow uid t st).
Proof.
  assert (∀ id, never_throws (navigateToFlow id))
    by (intros; unfold navigateToFlow, navigateToHome; totality).
  unfold createOrNavigateToFlow, createNewFlow, mutate, saveFlows.
  totality; eauto.
Qed.











End Frames.

(** ** Run orchestrator: single flight *)

Lemma single_flight_view s s' : run_view s' = run_view s → single_flight s → single_flight s'.
Proof.
  unfold run_view, single_flight. intros [= -> -> -> _]. done.
Qed.







Lemma removeInputButton_click_view s :
  run_view (listener removeInputButton_click s) =
    (inFlight s, true, runsStarted s, shownOutputs s).
Proof. reflexivity. Qed.










(** ** Run orchestrator: engine failure *)

Lemma run_start_clears_outputs s :
  runDisabled s = false → currentImages s ≠ [] →
  let s' := click_runFlowButton s in
  shownOutputs s' = ([], None) ∧ running s' = true ∧ runDisabled s' = true ∧
  inFlight s' = runsStarted s :: inFlight s ∧
  length (engineCalls s') = S (length (engineCalls s)).
Proof.
  intros Hd Himgs. unfold click_runFlowButton. rewrite Hd.
  destruct s as [? ? ? ? ? imgs]; simpl in *. by destruct imgs.
Qed.

(** C7.  When the engine call of an in-flight run settles with a failure
    result, nothing is published (the displayed outputs, emptied when the
    run started, and the stored output images stay as they are), the
    running indicator is cleared, the run button is enabled again, and no
    retry takes place: no engine call is added, no run is put in flight
    and no timer is set. *)
Theorem engine_failure s k :
  k ∈ inFlight s →
  let s' := settle k EngineFailure s in
  shownOutputs s' = shownOutputs s ∧ outputImages s' = outputImages s ∧
  running s' = false ∧ runDisabled s' = false ∧
  engineCalls s' = engineCalls s ∧
  inFlight s' = filter (λ j, j ≠ k) (inFlight s) ∧
  runsStarted s' = runsStarted s ∧ timers s' = timers s.
Proof.
  intros Hin. unfold settle. rewrite decide_True by done.
  by split_and!.
Qed.

Lemma engine_failure_witness :
  let s' := settle 0 EngineFailure one_run_started in
  shownOutputs s' = ([], None) ∧ running s' = false ∧ runDisabled s' = false ∧
  inFlight s' = [] ∧ length (engineCalls s') = 1%nat.
Proof.
  assert (0%nat ∈ inFlight one_run_started) as Hin by (vm_compute; left).
  destruct (engine_failure one_run_started 0 Hin)
    as (Hshown & _ & Hrun & Hdis & Hcalls & Hfl & _).
  split_and!; [by rewrite Hshown | done | done | by rewrite Hfl | by rewrite Hcalls].
Defined.

(** ** Save in place *)

Lemma save_loop_writes outs : ∀ s,
  (save_loop outs s).1 = set_writes (rev (saved_prefix (currentImages s) outs) ++ writes s) s.
Proof.
  induction outs as [|o rest IH]; intros s; [done|].
  cbn [save_loop saved_prefix]. unfold save_target, bind, gets, throw. cbn [mbind option_bind].
  destruct (List.find _ (currentImages s)) as [i|]; [|done]. cbn [mbind option_bind].
  destruct (fsHandlePromise i) as [h|]; [|done]. cbn [mbind option_bind].
  destruct (grants h); [|done].
  unfold modify. rewrite IH. cbn [rev]. by rewrite <- app_assoc.
Qed.

(** C3, as the code has it.  Save-in-place writes nothing unless there
    are as many inputs as outputs.  When there are, the outputs are taken
    in order, each is written to the handle of the first input whose file
    name is the output's name, and the loop stops at the first output
    that has no such input or whose input's handle is absent or refuses a
    writable stream; what was written before stays written. *)
Theorem save_in_place s :
  let s' := listener saveImagesButton_click s in
  (length (currentImages s) ≠ length (outputImages s) → s' = s) ∧
  (length (currentImages s) = length (outputImages s) →
   s' = set_writes (rev (saved_prefix (currentImages s) (outputImages s)) ++ writes s) s).
Proof.
  pose proof (save_loop_writes (outputImages s) s) as Hloop.
  destruct s as [? ? ? ? ? imgs outs]. cbn in Hloop.
  unfold listener, saveImagesButton_click, hasImagesToSave, bind, gets. cbn.
  split.
  - intros Hne. destruct outs as [|o outs]; [done|]. cbn.
    apply Nat.eqb_neq in Hne. cbn in Hne. by rewrite Hne.
  - intros Heq. destruct outs as [|o outs]; [done|]. cbn.
    cbn in Heq. rewrite Heq, Nat.eqb_refl. cbn. exact Hloop.
Qed.

Lemma save_in_place_witness :
  listener saveImagesButton_click half_saveable
  = set_writes [(7%nat, png [Byte.x01])] half_saveable.
Proof.
  destruct (save_in_place half_saveable) as [_ H]. apply H. reflexivity.
Defined.

(** C3 as stated fails: the second output matches no input, so the
    precondition of the specification does not hold, and still the first
    output has been written. *)
Lemma save_in_place_counterexample :
  spec_canSaveInPlace (currentImages half_saveable) (outputImages half_saveable) = false ∧
  writes half_saveable = [] ∧
  writes (listener saveImagesButton_click half_saveable) = [(7%nat, png [Byte.x01])].
Proof. by vm_compute. Qed.

(** ** Image viewer: sorting in place *)

Section SortBy.

Context {A : Type} (cmp : A → A → result Z) (le : A → A → Prop).

(** On [x] and [y] the comparator answers, and its sign tells which of
    the two goes first. *)
Let decides (x y : A) : Prop :=
  ∃ c, cmp x y = Ok c ∧ (c <= 0 → le x y) ∧ (0 < c → le y x).

Lemma insert_by_sorted x l :
  Sorted le l → (∀ y, y ∈ l → decides x y) →
  ∃ l', insert_by cmp x l = Ok l' ∧ x :: l ≡ₚ l' ∧ Sorted le l' ∧
        (∀ z, le z x → HdRel le z l → HdRel le z l').
Proof.
  induction l as [|y l IH]; intros Hs Hd.
  - exists [x]. split_and!; [done|done|by repeat constructor|].
    intros z Hz _. by constructor.
  - destruct (Hd y) as (c & Hc & Hle & Hgt); [by left|].
    cbn [insert_by]. rewrite Hc. cbn [rbind].
    destruct (Z.leb_spec c 0) as [Hneg|Hpos].
    + exists (x :: y :: l). split_and!; [done|done| |].
      * constructor; [done|]. constructor. by apply Hle.
      * intros z Hz _. by constructor.
    + apply Sorted_inv in Hs as [Hs Hhd].
      destruct IH as (l' & Hins & Hperm & Hs' & Hrel); [done| |].
      { intros y' Hy'. apply Hd. by right. }
      rewrite Hins. cbn [rbind]. exists (y :: l'). split_and!; [done| | |].
      * rewrite <- Hperm. apply perm_swap.
      * constructor; [done|]. apply Hrel; [by apply Hgt|done].
      * intros z _ Hz. apply HdRel_inv in Hz. by constructor.
Qed.

Lemma sort_by_sorted l :
  (∀ x y, x ∈ l → y ∈ l → decides x y) →
  ∃ l', sort_by cmp l = Ok l' ∧ l ≡ₚ l' ∧ Sorted le l'.
Proof.
  induction l as [|x l IH]; intros Hd.
  - exists []. by split_and!.
  - destruct IH as (l1 & Hsort & Hperm & Hs).
    { intros a b Ha Hb. apply Hd; by right. }
    destruct (insert_by_sorted x l1 Hs) as (l' & Hins & Hperm' & Hs' & _).
    { intros y Hy. apply Hd; [by left|]. right. by rewrite Hperm. }
    cbn [sort_by]. rewrite Hsort. cbn [rbind]. exists l'. split_and!; [done| |done].
    by rewrite <- Hperm', Hperm.
Qed.

End SortBy.


Lemma name_file_named l : Forall named l → map name_file l = l.
Proof.
  induction 1 as [|i l Hi _ IH]; [done|].
  cbn [map]. rewrite IH. unfold name_file. unfold named in Hi. by rewrite Hi.
Qed.

Section ViewerSorted.

Variable localeCompare : string → string → Z.
Hypothesis localeCompare_total : ∀ a b, localeCompare a b <= 0 ∨ localeCompare b a <= 0.

Lemma sort_outputs outs :
  ∃ outs', sort_by (compare_outputs localeCompare) outs = Ok outs' ∧ outs ≡ₚ outs' ∧
    Sorted (λ a b, name_le localeCompare (out_name a) (out_name b)) outs'.
Proof.
  apply sort_by_sorted. intros a b _ _. eexists. split; [reflexivity|].
  unfold name_le. split; [done|]. intros Hpos.
  destruct (localeCompare_total (out_name a) (out_name b)); [lia|done].
Qed.

Lemma sort_inputs imgs :
  Forall named imgs →
  ∃ imgs', sort_by (compare_inputs localeCompare) imgs = Ok imgs' ∧ imgs ≡ₚ imgs' ∧
    Sorted (λ a b, name_le localeCompare (input_name a) (input_name b)) imgs'.
Proof.
  intros Hnamed. apply sort_by_sorted. intros a b Ha _.
  rewrite Forall_forall in Hnamed. specialize (Hnamed a Ha).
  unfold named, compare_inputs, input_name, name_le in *.
  destruct (file_name (file a)) as [x|]; [|done].
  eexists. split; [reflexivity|]. cbn [default]. split; [done|]. intros Hpos.
  destruct (localeCompare_total x (default "undefined" (file_name (file b)))); [lia|done].
Qed.


End ViewerSorted.



Example view_reorders_inputs :
  map input_name (currentImages (listener (viewImagesButton_click codeUnitCompare) unsorted_pair))
  = ["a.png"; "b.png"].
Proof. reflexivity. Qed.

(** ** Editor commit *)

Lemma deref_insert h r new x :
  deref (<[r := new]> h) x = if decide (x = r) then new else deref h x.
Proof.
  unfold deref. destruct (decide (x = r)) as [->|Hne].
  - by rewrite lookup_insert_eq.
  - by rewrite lookup_insert_ne.
Qed.

Lemma commit_collection (h : gmap nat Flow) (fl : list nat) (r : nat) (new : Flow) :
  flow_id new = flow_id (deref h r) →
  let h' := <[r := new]> h in
  let found := list_find (λ x, flow_id (deref h' x) = flow_id new) fl in
  let saved := deref h' <$> assign_at found r fl in
  length saved = length fl ∧
  (∀ j f, (deref h <$> fl) !! j = Some f → flow_id f ≠ flow_id new → saved !! j = Some f) ∧
  (∀ j f, (deref h <$> fl) !! j = Some f → saved !! j = Some f ∨ saved !! j = Some new) ∧
  (∀ j, fl !! j = Some r → saved !! j = Some new) ∧
  (∀ j x, found = Some (j, x) → saved !! j = Some new) ∧
  found = list_find (λ x, flow_id (deref h x) = flow_id new) fl.
Proof.
  intros Hid h' found saved.
  assert (∀ x, flow_id (deref h' x) = flow_id (deref h x)) as Hsame.
  { intros x. unfold h'. rewrite deref_insert. case_decide; by subst. }
  assert (∀ j, fl !! j = Some r → saved !! j = Some new) as Hat_r.
  { intros j Hj. unfold saved. rewrite list_lookup_fmap.
    assert (assign_at found r fl !! j = Some r) as ->.
    { unfold assign_at. destruct found as [[i y]|]; [|done].
      destruct (decide (i = j)) as [->|Hne].
      - apply list_lookup_insert_eq. by eapply lookup_lt_Some.
      - by rewrite list_lookup_insert_ne. }
    cbn. unfold h'. rewrite deref_insert. by rewrite decide_True. }
  assert (∀ j x, found = Some (j, x) → saved !! j = Some new) as Hat_found.
  { intros j x Hf. unfold saved. rewrite list_lookup_fmap. unfold assign_at. rewrite Hf.
    apply list_find_Some in Hf as (Hj & _).
    rewrite list_lookup_insert_eq by (by eapply lookup_lt_Some).
    cbn. unfold h'. rewrite deref_insert. by rewrite decide_True. }
  assert (∀ j y, fl !! j = Some y → y ≠ r → (∀ x, found ≠ Some (j, x)) →
                 saved !! j = Some (deref h y)) as Hother.
  { intros j y Hj Hy Hnf. unfold saved. rewrite list_lookup_fmap.
    assert (assign_at found r fl !! j = Some y) as ->.
    { unfold assign_at. destruct found as [[i z]|] eqn:Ef; [|done].
      rewrite list_lookup_insert_ne; [done|]. intros ->. by eapply Hnf. }
    cbn. unfold h'. rewrite deref_insert. by rewrite decide_False. }
  split_and!.
  - unfold saved, assign_at. rewrite length_fmap.
    destruct found as [[i y]|]; [apply length_insert|done].
  - intros j f Hj Hne. rewrite list_lookup_fmap in Hj.
    destruct (fl !! j) as [y|] eqn:Ey; [|done]. injection Hj as <-.
    apply Hother; [done| |].
    + intros ->. by rewrite Hid in Hne.
    + intros x Hf. apply list_find_Some in Hf as (Hjx & Hpx & _).
      rewrite Ey in Hjx. injection Hjx as <-. rewrite Hsame in Hpx. done.
  - intros j f Hj. rewrite list_lookup_fmap in Hj.
    destruct (fl !! j) as [y|] eqn:Ey; [|done]. injection Hj as <-.
    destruct (decide (y = r)) as [->|Hy]; [right; by apply Hat_r|].
    destruct found as [[i z]|] eqn:Ef.
    + destruct (decide (i = j)) as [->|Hij]; [right; by eapply Hat_found|].
      left. apply Hother; [done|done|]. intros x [= ? ?]. done.
    + left. apply Hother; [done|done|done].
  - done.
  - done.
  - unfold found. apply list_find_ext. intros x. by rewrite Hsame.
Qed.

Lemma mutate_mutate (h : gmap nat Flow) r g1 g2 :
  <[r := g2 (deref (<[r := g1 (deref h r)]> h) r)]> (<[r := g1 (deref h r)]> h)
  = <[r := g2 (g1 (deref h r))]> h.
Proof.
  rewrite (deref_insert h r _ r), decide_True by done. apply insert_insert_eq.
Qed.

(** C8.  Committing the editor form to the current flow saves the
    collection with the same length and order: an entry whose id differs
    from the current flow's id is saved as it was, every entry is saved
    either as it was or as the current flow with the form's name and
    steps, and the first entry bearing the current flow's id is saved as
    that updated flow. *)
Theorem handleFlowChange_replaces_current form s cur :
  currentFlow s = Some cur →
  let old := deref (heap s) cur in
  let updated := mkFlow (flow_id old) (form_name form) (read_steps form) in
  ∃ s', handleFlowChange form s = (s', Ok tt) ∧
    persisted s' = snapshot s' ∧
    deref (heap s') cur = updated ∧
    length (persisted s') = length (snapshot s) ∧
    (∀ j f, snapshot s !! j = Some f → flow_id f ≠ flow_id old →
            persisted s' !! j = Some f) ∧
    (∀ j f, snapshot s !! j = Some f →
            persisted s' !! j = Some f ∨ persisted s' !! j = Some updated) ∧
    (∀ j x, find_flow (λ f, flow_id f = flow_id old) s = Some (j, x) →
            persisted s' !! j = Some updated).
Proof.
  intros Hcur old updated.
  destruct s as [h fl ? c]. cbn in Hcur. subst c.
  cbn in old. subst old.
  pose proof (commit_collection h fl cur updated eq_refl) as Hcommit.
  eexists. split.
  { unfold handleFlowChange, mutate, saveFlows, bind, gets, modify. cbn. reflexivity. }
  cbn. unfold snapshot, find_flow. cbn. 
  rewrite (mutate_mutate h cur (with_steps (read_steps form)) (with_name (form_name form))).
  change (with_name (form_name form) (with_steps (read_steps form) (deref h cur))) with updated.
  rewrite (deref_insert h cur updated cur), decide_True by done.
  cbn in Hcommit. destruct Hcommit as (Hlen & Hother & Hany & _ & Hfound & Hfind).
  split_and!; try done.
  - etrans; [exact Hlen | by rewrite length_fmap].
  - intros j x Hf. eapply Hfound. rewrite Hfind. exact Hf.
Qed.

Lemma handleFlowChange_replaces_current_witness :
  ∃ s', handleFlowChange (mkForm [("rotate", ["90"])] "turn") editing_second = (s', Ok tt) ∧
        persisted s' = [ mkFlow "f1" "Untitled flow" [];
                         mkFlow "f2" "turn" [mkStep "rotate" [PStr "90"]] ].
Proof.
  destruct (handleFlowChange_replaces_current
              (mkForm [("rotate", ["90"])] "turn") editing_second 1 eq_refl)
    as (s' & E & _).
  exists s'. split; [exact E|].
  vm_compute in E. injection E as <-. reflexivity.
Defined.

(** ** Intent resolver: flow reuse *)

Lemma navigateToFlow_store id s :
  ∃ s', navigateToFlow id s = (s', Ok tt) ∧
        heap s' = heap s ∧ flows s' = flows s ∧ persisted s' = persisted s.
Proof.
  unfold navigateToFlow, navigateToHome, bind, modify, gets. cbn.
  destruct (list_find _ (flows s)) as [[i r]|]; cbn; eexists; by split_and!.
Qed.

Lemma new_ref_fresh s : new_ref s ∉ flows s.
Proof.
  unfold new_ref. intros Hin.
  eapply (is_fresh (dom (heap s) ∪ list_to_set (flows s)
                    ∪ list_to_set (option_list (currentFlow s)) : gset nat)).
  set_solver.
Qed.

Lemma snapshot_alloc (h : gmap nat Flow) (fl : list nat) r new :
  r ∉ fl → deref (<[r := new]> h) <$> (fl ++ [r])%list = ((deref h <$> fl) ++ [new])%list.
Proof.
  intros Hr. rewrite fmap_app. cbn. f_equal.
  - apply list_fmap_ext. intros i x Hx. rewrite deref_insert, decide_False; [done|].
    intros ->. apply Hr. by eapply list_elem_of_lookup_2.
  - by rewrite deref_insert, decide_True.
Qed.

(** C5, as the code has it.  When some flow bears the resolved title,
    the first such flow gets the resolved steps, is the target, and the
    collection is saved with the same length, that flow updated in its
    place and every entry of another id as it was.  When none does, a new
    flow with the resolved steps is appended and saved; its name is the
    resolved title, or "Untitled flow" when the resolved title is
    empty. *)
Theorem createOrNavigateToFlow_reuse uid flowTitle flowSteps s :
  (∀ i existing,
     find_flow (λ flow, flow_name flow = flowTitle) s = Some (i, existing) →
     let updated := with_steps flowSteps (deref (heap s) existing) in
     ∃ s', createOrNavigateToFlow uid flowTitle flowSteps s = (s', Ok existing) ∧
       deref (heap s') existing = updated ∧
       persisted s' = snapshot s' ∧
       length (persisted s') = length (snapshot s) ∧
       persisted s' !! i = Some updated ∧
       (∀ j f, snapshot s !! j = Some f → flow_id f ≠ flow_id updated →
               persisted s' !! j = Some f)) ∧
  (find_flow (λ flow, flow_name flow = flowTitle) s = None →
     let newFlow :=
       mkFlow uid (if decide (flowTitle = "") then "Untitled flow" else flowTitle) flowSteps in
     ∃ s' r, createOrNavigateToFlow uid flowTitle flowSteps s = (s', Ok r) ∧
       deref (heap s') r = newFlow ∧
       persisted s' = snapshot s' ∧
       persisted s' = (snapshot s ++ [newFlow])%list).
Proof.
  split.
  - intros i existing Hfind updated.
    pose proof (commit_collection (heap s) (flows s) existing updated eq_refl)
      as (Hlen & Hother & _ & Hat & _).
    apply list_find_Some in Hfind as Hi. destruct Hi as (Hi & _).
    unfold createOrNavigateToFlow.
    erewrite bind_run by (unfold gets; rewrite Hfind; reflexivity).
    unfold mutate, saveFlows.
    do 4 (erewrite bind_run by reflexivity).
    match goal with |- context [bind (navigateToFlow ?id) _ ?s1] =>
      destruct (navigateToFlow_store id s1) as (s' & E & Hh & Hf & Hp) end.
    erewrite bind_run by exact E.
    exists s'. split; [reflexivity|].
    unfold snapshot. rewrite Hh, Hf, Hp. cbn. unfold find_flow. cbn.
    rewrite (deref_insert (heap s) existing _ existing), decide_True by done.
    split_and!.
    + done.
    + done.
    + etrans; [exact Hlen | by rewrite length_fmap].
    + by apply Hat.
    + exact Hother.
  - intros Hfind newFlow.
    unfold createOrNavigateToFlow.
    erewrite bind_run by (unfold gets; rewrite Hfind; reflexivity).
    unfold createNewFlow, saveFlows.
    do 4 (erewrite bind_run by reflexivity).
    match goal with |- context [bind (navigateToFlow ?id) _ ?s1] =>
      destruct (navigateToFlow_store id s1) as (s' & E & Hh & Hf & Hp) end.
    erewrite bind_run by exact E.
    exists s', (new_ref s). split; [reflexivity|].
    unfold snapshot. rewrite Hh, Hf, Hp. cbn.
    split_and!.
    + by rewrite deref_insert, decide_True.
    + done.
    + apply snapshot_alloc, new_ref_fresh.
Qed.

Lemma createOrNavigateToFlow_reuse_witness :
  (∃ s', createOrNavigateToFlow "u1" "resize 250" (resize_step 250) two_flows = (s', Ok 1%nat) ∧
         persisted s' !! 1%nat = Some (mkFlow "f2" "resize 250" (resize_step 250))) ∧
  (∃ s' r, createOrNavigateToFlow "u1" "sepia" [mkStep "sepia-tone" [PNum 80]] two_flows
           = (s', Ok r) ∧
           persisted s' = (snapshot two_flows
                           ++ [mkFlow "u1" "sepia" [mkStep "sepia-tone" [PNum 80]]])%list).
Proof.
  split.
  - destruct (createOrNavigateToFlow_reuse "u1" "resize 250" (resize_step 250) two_flows)
      as [Hreuse _].
    destruct (Hreuse 1%nat 1%nat) as (s' & E & _ & _ & _ & Hat & _); [by vm_compute|].
    exists s'. split; [exact E | exact Hat].
  - destruct (createOrNavigateToFlow_reuse "u1" "sepia" [mkStep "sepia-tone" [PNum 80]] two_flows)
      as [_ Hnew].
    destruct Hnew as (s' & r & E & _ & _ & Hsaved); [by vm_compute|].
    exists s', r. split; [exact E | exact Hsaved].
Defined.

(** C5 as stated fails: the URL web+wami:/// resolves to the empty title,
    no flow is named by the empty string, and the flow that is created
    and saved is named "Untitled flow". *)
Lemma createOrNavigateToFlow_counterexample :
  determineFlowConfiguration (mkShareData 1 None None (Some "web+wami:///"))
    = Ok ("", resize_step 1000) ∧
  find_flow (λ flow, flow_name flow = "") two_flows = None ∧
  persisted (createOrNavigateToFlow "u1" "" (resize_step 1000) two_flows).1
    = [ mkFlow "f1" "Untitled flow" [];
        mkFlow "f2" "resize 250" [mkStep "blur" [PNum 3]];
        mkFlow "u1" "Untitled flow" (resize_step 1000) ].
Proof. by vm_compute. Qed.

(** ** Share-target consumer: loading the images *)

Lemma load_loop_spec sd n : ∀ i acc s,
  load_loop sd n i acc s =
    (s, Ok (acc ++ omap (λ j, shared_image sd j <$> cache s !! file_key j)
                        (seqZ i (Z.of_nat n)))%list).
Proof.
  induction n as [|n IH]; intros i acc s.
  - cbn. by rewrite app_nil_r.
  - rewrite seqZ_cons by lia.
    replace (Z.pred (Z.of_nat (S n))) with (Z.of_nat n) by lia.
    cbn [load_loop omap list_omap]. unfold bind, gets.
    destruct (cache s !! file_key i) as [resp|]; cbn [fmap option_fmap option_map].
    + rewrite IH. by rewrite <- app_assoc.
    + by rewrite IH.
Qed.

Lemma seqZ_to_nat i n : seqZ i (Z.of_nat (Z.to_nat n)) = seqZ i n.
Proof. unfold seqZ. by rewrite Nat2Z.id. Qed.

(** C9, as the code has it.  The images loaded from a share are those of
    the indices 0 .. fileCount-1 whose blob is in the cache, in that
    order; they become the input batch when there is at least one.  The
    image of index i is named manifest.fileNames[i] when that entry is
    present and not the empty string, and shared-<i+1>.<ext> otherwise,
    the extension being looked up in the MIME-type table with "jpg" as
    the default; its write handle is absent. *)
Theorem shared_images_named sd s :
  let loaded :=
    omap (λ i, shared_image sd i <$> cache s !! file_key i) (seqZ 0 (fileCount sd)) in
  load_loop sd (Z.to_nat (fileCount sd)) 0 [] s = (s, Ok loaded) ∧
  currentImages (listener (loadAndProcessSharedImages sd) s)
    = match loaded with [] => currentImages s | _ :: _ => loaded end ∧
  ∀ i fileResponse,
    let image := shared_image sd i fileResponse in
    let generated :=
      "shared-" ++ JsString.to_decimal (i + 1) ++ "."
      ++ default "jpg" (extensions !! file_type (resp_blob fileResponse)) in
    file_name (file image)
      = Some (match fileNames sd ≫= (λ names, names !! Z.to_nat i) with
              | Some n => if decide (n = "") then generated else n
              | None => generated
              end) ∧
    img_name image = file_name (file image) ∧
    fsHandlePromise image = None.
Proof.
  intros loaded.
  assert (load_loop sd (Z.to_nat (fileCount sd)) 0 [] s = (s, Ok loaded)) as Hloop.
  { rewrite load_loop_spec. cbn [app]. by rewrite seqZ_to_nat. }
  split_and!.
  - exact Hloop.
  - unfold listener, loadAndProcessSharedImages.
    erewrite bind_run by exact Hloop. by destruct loaded.
  - intros i resp. cbn. split_and!; [|done|done].
    unfold shared_file_name, getFileExtension.
    destruct (fileNames sd ≫= _) as [n|]; [|done].
    cbn. by destruct (decide (n = "")); [rewrite bool_decide_true|rewrite bool_decide_false].
Qed.

(** C9 as stated fails: the manifest has an entry for index 0, the empty
    string, and the image is given the generated name. *)
Lemma shared_images_counterexample :
  (fileNames manifest_blank_name ≫= λ names, names !! 0%nat) = Some "" ∧
  map (λ i, file_name (file i))
      (currentImages (listener (loadAndProcessSharedImages manifest_blank_name)
                               shared_blank_name))
    = [Some "shared-1.png"].
Proof. by vm_compute. Qed.

Example shared_cat :
  map (λ i, file_name (file i))
      (currentImages (listener (loadAndProcessSharedImages (mkShareData 1 (Some ["cat.png"]) None None))
                               shared_blank_name))
    = [Some "cat.png"].
Proof. by vm_compute. Qed.

Example getFileExtension_table :
  map getFileExtension ["image/jpeg"; "image/png"; "image/gif"; "image/webp"; "image/svg+xml";
                        "image/avif"; ""]
    = ["jpg"; "png"; "gif"; "webp"; "svg"; "jpg"; "jpg"].
Proof. by vm_compute. Qed.

(** ** Share-target consumer: cleanup and URL scrub *)

Lemma cleanup_loop_spec n : ∀ i s,
  ∃ c', cleanup_loop n i s = (set_cache c' s, Ok tt) ∧
        (∀ k, cache s !! k = None → c' !! k = None) ∧
        (∀ j, i <= j < i + Z.of_nat n → c' !! file_key j = None).
Proof.
  induction n as [|n IH]; intros i s.
  - exists (cache s). split_and!; [done|done|]. intros j Hj. lia.
  - destruct (IH (i + 1) (set_cache (delete (file_key i) (cache s)) s))
      as (c' & Heq & Hmono & Hdel).
    exists c'. split_and!.
    + cbn [cleanup_loop]. erewrite bind_run by reflexivity. by rewrite Heq.
    + intros k Hk. apply Hmono. cbn. rewrite lookup_delete_None. by right.
    + intros j Hj. destruct (decide (j = i)) as [->|Hne].
      * apply Hmono. cbn. apply lookup_delete_eq.
      * apply Hdel. lia.
Qed.

Lemma cleanupShareCache_spec sd s :
  ∃ c', cleanupShareCache sd s = (set_cache c' s, Ok tt) ∧
        c' !! manifest_key = None ∧
        (∀ i, 0 <= i < fileCount sd → c' !! file_key i = None).
Proof.
  destruct (cleanup_loop_spec (Z.to_nat (fileCount sd)) 0
              (set_cache (delete manifest_key (cache s)) s)) as (c' & Heq & Hmono & Hdel).
  exists c'. split_and!.
  - unfold cleanupShareCache. erewrite bind_run by reflexivity. by rewrite Heq.
  - apply Hmono. cbn. apply lookup_delete_eq.
  - intros i Hi. apply Hdel. lia.
Qed.

Lemma loadAndProcessSharedImages_cache sd : preserves cache (loadAndProcessSharedImages sd).
Proof.
  assert (∀ n i acc, preserves cache (load_loop sd n i acc))
    by (induction n; intros; simpl; frame).
  unfold loadAndProcessSharedImages, populateInputImages. frame.
Qed.

Lemma loadAndProcessSharedImages_total sd : never_throws (loadAndProcessSharedImages sd).
Proof.
  assert (∀ n i acc, never_throws (load_loop sd n i acc))
    by (induction n; intros; simpl; totality).
  unfold loadAndProcessSharedImages, populateInputImages. totality; eauto.
Qed.

(** C1, as the code has it.  When the manifest was read, lists at least
    one file, and flow resolution does not throw, the activation ends
    with the manifest entry and the entries file-0 .. file-(fileCount-1)
    deleted from the transfer cache. *)
Theorem share_cleanup_after_success uid s resp sd config :
  isShared s = true →
  cache s !! manifest_key = Some resp →
  resp_json resp = Some sd →
  0 < fileCount sd →
  determineFlowConfiguration sd = Ok config →
  let s' := processShareTargetData uid s in
  cache s' !! manifest_key = None ∧
  ∀ i, 0 <= i < fileCount sd → cache s' !! file_key i = None.
Proof.
  intros Hshared Hmanifest Hjson Hcount Hconfig.
  destruct (never_throws_run (createOrNavigateToFlow uid config.1 config.2) s
              (createOrNavigateToFlow_total _ _ _)) as (s1 & target & E1).
  destruct (never_throws_run (loadAndProcessSharedImages sd) s1
              (loadAndProcessSharedImages_total _)) as (s2 & [] & E2).
  destruct (cleanupShareCache_spec sd s2) as (c' & E3 & Hm & Hf).
  assert (share_try uid s = (set_cache c' s2, Ok Completed)) as Etry.
  { unfold share_try. erewrite bind_run by reflexivity.
    rewrite Hmanifest, Hjson.
    destruct (Z.leb_spec (fileCount sd) 0) as [|_]; [lia|].
    erewrite bind_run by (unfold lift; rewrite Hconfig; reflexivity).
    erewrite bind_run by exact E1.
    erewrite bind_run by exact E2.
    erewrite bind_run by exact E3. reflexivity. }
  unfold processShareTargetData. rewrite Hshared, Etry. cbn.
  split; [exact Hm | exact Hf].
Qed.

Lemma share_cleanup_after_success_witness :
  let s' := processShareTargetData "u1" shared_250 in
  cache s' !! manifest_key = None ∧
  ∀ i, 0 <= i < fileCount manifest_250 → cache s' !! file_key i = None.
Proof.
  apply (share_cleanup_after_success "u1" shared_250
           (mkResponse (Some manifest_250) (mkFile None "application/json" []))
           manifest_250 ("resize 250", resize_step 250)).
  - by vm_compute.
  - by vm_compute.
  - reflexivity.
  - reflexivity.
  - by vm_compute.
Defined.

(** C1 as stated fails: the manifest is read, decoding its URL throws,
    and the activation ends with the manifest entry and file-0 still in
    the transfer cache. *)
Lemma share_cleanup_counterexample :
  isShared shared_bad_url = true ∧
  resp_json <$> cache shared_bad_url !! manifest_key = Some (Some manifest_bad_url) ∧
  determineFlowConfiguration manifest_bad_url = Throw URIError ∧
  cache (processShareTargetData "u1" shared_bad_url) = cache shared_bad_url ∧
  is_Some (cache shared_bad_url !! manifest_key) ∧
  is_Some (cache shared_bad_url !! file_key 0).
Proof. vm_compute. split_and!; eauto. Qed.

(** C4 at its failing inputs.  Launched with the share flag, the
    activation returns from inside the [try] block when no manifest is
    staged and when the manifest lists no file; the statement after the
    block is not reached and the share flag is still in the URL. *)
Theorem share_marker_survives_early_return :
  isShared (processShareTargetData "u1" launched_without_manifest) = true ∧
  isShared (processShareTargetData "u1" launched_without_files) = true.
Proof. by vm_compute. Qed.

(** With no file listed the manifest entry stays in the cache as well. *)
Example manifest_kept_without_files :
  cache (processShareTargetData "u1" launched_without_files) = cache launched_without_files ∧
  is_Some (cache launched_without_files !! manifest_key).
Proof. vm_compute. split; eauto. Qed.

(** On the other two ways out of the [try] block, off its end or by an
    exception, the URL is scrubbed. *)

Lemma processShareTargetData_scrubs uid s :
  isShared s = true → (share_try uid s).2 ≠ Ok Returned →
  query (processShareTargetData uid s) = [].
Proof.
  intros Hshared Hleft. unfold processShareTargetData. rewrite Hshared. cbn [negb].
  destruct (share_try uid s) as [s' [[]|e]]; cbn in *; congruence.
Qed.

(** ** Intent resolver: custom URI *)

(** C6.  Parsing web+wami://resize/250 gives the title "resize 250" and
    the one step resize-width-if-larger with the parameter 250. *)
Theorem parseWebWamiUrl_resize_250 :
  parseWebWamiUrl "web+wami://resize/250"
  = Ok (Some ("resize 250", [mkStep "resize-width-if-larger" [PNum 250]])).
Proof. by vm_compute. Qed.

Example parseWebWamiUrl_unknown_command :
  parseWebWamiUrl "web+wami://unknown-command"
  = Ok (Some ("unknown-command", [mkStep "resize-width-if-larger" [PNum 1000]])).
Proof. by vm_compute. Qed.

(** ** Flow collection: navigation, adding and deleting *)

Lemma navigateToFlow_lands id s :
  ∃ s', navigateToFlow id s = (s', Ok tt) ∧
    heap s' = heap s ∧ flows s' = flows s ∧ persisted s' = persisted s ∧
    match find_flow (λ f, id = flow_id f) s with
    | Some (_, r) => currentFlow s' = Some r ∧ currentId s' = Some id
    | None => currentFlow s' = None ∧ currentId s' = None
    end.
Proof.
  unfold navigateToFlow, navigateToHome, bind, modify, gets, find_flow. cbn.
  destruct (list_find _ (flows s)) as [[i r]|]; cbn; eexists; by split_and!.
Qed.

Lemma snapshot_fresh (h : gmap nat Flow) (fl : list nat) r new :
  r ∉ fl → deref (<[r := new]> h) <$> fl = deref h <$> fl.
Proof.
  intros Hr. apply list_fmap_ext. intros i x Hx.
  rewrite deref_insert, decide_False; [done|].
  intros ->. apply Hr. by eapply list_elem_of_lookup_2.
Qed.

Lemma list_find_app_new {A} (P : A → Prop) `{∀ x, Decision (P x)} (l : list A) r :
  Forall (λ x, ¬ P x) l → P r → list_find P (l ++ [r])%list = Some (length l, r).
Proof.
  intros Hold Hnew. apply list_find_Some. split_and!.
  - rewrite lookup_app_r by lia. by rewrite Nat.sub_diag.
  - done.
  - intros j y Hj Hlt. rewrite lookup_app_l in Hj by lia.
    rewrite Forall_forall in Hold. apply Hold. by eapply list_elem_of_lookup_2.
Qed.

Lemma list_find_app_old {A} (P : A → Prop) `{∀ x, Decision (P x)} (l : list A) r j x :
  list_find P l = Some (j, x) → list_find P (l ++ [r])%list = Some (j, x).
Proof.
  intros (Hj & Hx & Hmin)%list_find_Some. apply list_find_Some. split_and!.
  - by apply lookup_app_l_Some.
  - done.
  - intros k y Hk Hlt. rewrite lookup_app_l in Hk by (apply lookup_lt_Some in Hj; lia).
    by eapply Hmin.
Qed.

Lemma list_find_fresh (P Q : nat → Prop) `{∀ x, Decision (P x)} `{∀ x, Decision (Q x)}
    (l : list nat) :
  (∀ x, x ∈ l → P x ↔ Q x) → list_find P l = list_find Q l.
Proof.
  intros Hpq. induction l as [|x l IH]; [done|]. cbn.
  assert (P x ↔ Q x) as Hx by (apply Hpq; left).
  destruct (decide (P x)), (decide (Q x)); try tauto.
  rewrite IH; [done|]. intros y Hy. apply Hpq. by right.
Qed.

Lemma elem_of_flow_ids s x : x ∈ flows s → flow_id (deref (heap s) x) ∈ flow_ids s.
Proof.
  intros Hx. unfold flow_ids, snapshot. rewrite <- list_fmap_compose.
  apply (list_elem_of_fmap_2 (flow_id ∘ deref (heap s))). done.
Qed.

Theorem addFlowButton_click_appends uid s :
  let newFlow := mkFlow uid "Untitled flow" [] in
  ∃ s', addFlowButton_click uid s = (s', Ok tt) ∧
    persisted s' = (snapshot s ++ [newFlow])%list ∧
    snapshot s' = persisted s' ∧
    (uid ∉ flow_ids s →
       currentFlow s' = Some (new_ref s) ∧ currentId s' = Some uid ∧
       deref (heap s') (new_ref s) = newFlow) ∧
    (∀ j r, find_flow (λ f, uid = flow_id f) s = Some (j, r) →
       currentFlow s' = Some r ∧ r ≠ new_ref s).
Proof.
  intros newFlow. unfold addFlowButton_click, saveFlows.
  do 4 (erewrite bind_run by reflexivity).
  match goal with |- context [navigateToFlow ?id ?s1] =>
    destruct (navigateToFlow_lands id s1) as (s' & E & Hh & Hf & Hp & Hcur) end.
  exists s'. split; [exact E|].
  pose proof (new_ref_fresh s) as Hfresh.
  unfold snapshot. rewrite Hh, Hf, Hp. cbn. cbn in Hcur. unfold find_flow in Hcur. cbn in Hcur.
  split_and!.
  - apply snapshot_alloc, Hfresh.
  - done.
  - intros Huid.
    erewrite list_find_app_new in Hcur.
    + destruct Hcur as [-> ->]. split_and!; [done|done|].
      by rewrite deref_insert, decide_True.
    + rewrite Forall_forall. intros x Hx.
      rewrite deref_insert, decide_False by (intros ->; done).
      intros Heq. apply Huid. rewrite Heq. by apply elem_of_flow_ids.
    + by rewrite deref_insert, decide_True.
  - intros j r Hfind. unfold find_flow in Hfind.
    assert (r ≠ new_ref s) as Hne.
    { apply list_find_Some in Hfind as (Hj & _).
      intros ->. apply Hfresh. by eapply list_elem_of_lookup_2. }
    erewrite list_find_app_old in Hcur.
    + by destruct Hcur as [-> _].
    + rewrite <- Hfind. apply list_find_fresh. intros x Hx.
      rewrite deref_insert, decide_False; [done|]. by intros ->.
Qed.

Lemma list_find_assign_at (P Q : nat → Prop) `{∀ x, Decision (P x)} `{∀ x, Decision (Q x)}
    (l : list nat) e i :
  l !! i = Some e → P e → (∀ x, P x ↔ Q x) →
  ∃ j, list_find Q (assign_at (list_find P l) e l) = Some (j, e).
Proof.
  intros Hi He Hpq. destruct (list_find P l) as [[j x]|] eqn:E.
  - apply list_find_Some in E as (Hj & Hx & Hmin). exists j. cbn.
    apply list_find_Some. split_and!.
    + apply list_lookup_insert_eq. by eapply lookup_lt_Some.
    + by apply Hpq.
    + intros k y Hk Hlt. rewrite list_lookup_insert_ne in Hk by lia.
      rewrite <- Hpq. by eapply Hmin.
  - apply list_find_None in E. rewrite Forall_forall in E.
    exfalso. eapply E; [by eapply list_elem_of_lookup_2|done].
Qed.

Lemma createOrNavigateToFlow_existing_run uid flowTitle flowSteps s i existing :
  find_flow (λ flow, flow_name flow = flowTitle) s = Some (i, existing) →
  let updated := with_steps flowSteps (deref (heap s) existing) in
  let h' := <[existing := updated]> (heap s) in
  ∃ s', createOrNavigateToFlow uid flowTitle flowSteps s = (s', Ok existing) ∧
    heap s' = h' ∧
    flows s' = assign_at (list_find (λ x, flow_id (deref h' x) = flow_id updated) (flows s))
                         existing (flows s) ∧
    persisted s' = snapshot s' ∧
    currentFlow s' = Some existing ∧ currentId s' = Some (flow_id updated).
Proof.
  intros Hfind updated h'.
  apply list_find_Some in Hfind as Hi. destruct Hi as (Hi & _).
  unfold createOrNavigateToFlow.
  erewrite bind_run by (unfold gets; rewrite Hfind; reflexivity).
  unfold mutate, saveFlows.
  do 4 (erewrite bind_run by reflexivity).
  match goal with |- context [bind (navigateToFlow ?id) _ ?s1] =>
    destruct (navigateToFlow_lands id s1) as (s' & E & Hh & Hf & Hp & Hcur) end.
  erewrite bind_run by exact E.
  exists s'. split; [reflexivity|].
  unfold snapshot. rewrite Hh, Hf, Hp. cbn. unfold find_flow in *. cbn in *.
  rewrite (deref_insert (heap s) existing _ existing), decide_True in * by done.
  split_and!; try done.
  - edestruct (list_find_assign_at
                 (λ x, flow_id (deref h' x) = flow_id updated)
                 (λ r, flow_id updated = flow_id (deref h' r))
                 (flows s) existing i) as (j & Hj); [done| |done|].
    + unfold h'. by rewrite deref_insert, decide_True.
    + match type of Hcur with match ?t with _ => _ end =>
        replace t with (Some (j, existing)) in Hcur by (symmetry; exact Hj) end.
      by destruct Hcur.
  - edestruct (list_find_assign_at
                 (λ x, flow_id (deref h' x) = flow_id updated)
                 (λ r, flow_id updated = flow_id (deref h' r))
                 (flows s) existing i) as (j & Hj); [done| |done|].
    + unfold h'. by rewrite deref_insert, decide_True.
    + match type of Hcur with match ?t with _ => _ end =>
        replace t with (Some (j, existing)) in Hcur by (symmetry; exact Hj) end.
      by destruct Hcur.
Qed.

Lemma createOrNavigateToFlow_new_run uid flowTitle flowSteps s :
  find_flow (λ flow, flow_name flow = flowTitle) s = None →
  let newFlow :=
    mkFlow uid (if decide (flowTitle = "") then "Untitled flow" else flowTitle) flowSteps in
  ∃ s', createOrNavigateToFlow uid flowTitle flowSteps s = (s', Ok (new_ref s)) ∧
    heap s' = <[new_ref s := newFlow]> (heap s) ∧
    flows s' = (flows s ++ [new_ref s])%list ∧
    persisted s' = snapshot s' ∧
    (uid ∉ flow_ids s → currentFlow s' = Some (new_ref s) ∧ currentId s' = Some uid).
Proof.
  intros Hfind newFlow.
  unfold createOrNavigateToFlow.
  erewrite bind_run by (unfold gets; rewrite Hfind; reflexivity).
  unfold createNewFlow, saveFlows.
  do 4 (erewrite bind_run by reflexivity).
  match goal with |- context [bind (navigateToFlow ?id) _ ?s1] =>
    destruct (navigateToFlow_lands id s1) as (s' & E & Hh & Hf & Hp & Hcur) end.
  erewrite bind_run by exact E.
  exists s'. split; [reflexivity|].
  pose proof (new_ref_fresh s) as Hfresh.
  unfold snapshot. rewrite Hh, Hf, Hp. cbn. unfold find_flow in Hcur. cbn in Hcur.
  split_and!; try done.
  intros Huid. erewrite list_find_app_new in Hcur.
  - by destruct Hcur as [-> ->].
  - rewrite Forall_forall. intros x Hx.
    rewrite deref_insert, decide_False by (intros ->; done).
    intros Heq. apply Huid. rewrite Heq. by apply elem_of_flow_ids.
  - by rewrite deref_insert, decide_True.
Qed.

Theorem createOrNavigateToFlow_selects_target uid flowTitle flowSteps s :
  (∀ i existing,
     find_flow (λ flow, flow_name flow = flowTitle) s = Some (i, existing) →
     ∃ s', createOrNavigateToFlow uid flowTitle flowSteps s = (s', Ok existing) ∧
       currentFlow s' = Some existing ∧
       currentId s' = Some (flow_id (deref (heap s) existing))) ∧
  (find_flow (λ flow, flow_name flow = flowTitle) s = None →
     uid ∉ flow_ids s →
     ∃ s', createOrNavigateToFlow uid flowTitle flowSteps s = (s', Ok (new_ref s)) ∧
       currentFlow s' = Some (new_ref s) ∧ currentId s' = Some uid).
Proof.
  split.
  - intros i existing Hfind.
    destruct (createOrNavigateToFlow_existing_run uid flowTitle flowSteps s i existing Hfind)
      as (s' & E & _ & _ & _ & Hcur & Hid).
    exists s'. by split_and!.
  - intros Hfind Huid.
    destruct (createOrNavigateToFlow_new_run uid flowTitle flowSteps s Hfind)
      as (s' & E & _ & _ & _ & Hcur).
    exists s'. destruct (Hcur Huid). by split_and!.
Qed.

(** *** Deleting *)

Lemma deleteFlowButton_click_run s cur :
  currentFlow s = Some cur →
  let flowIndex := find_flow (λ f, flow_id f = flow_id (deref (heap s) cur)) s in
  deleteFlowButton_click s =
    (set_currentId None (set_currentFlow None
       (set_persisted (deref (heap s) <$> splice_one flowIndex (flows s))
          (set_flows (splice_one flowIndex (flows s)) s))), Ok tt).
Proof.
  intros Hcur. destruct s as [h fl p c]. cbn in Hcur. subst c. reflexivity.
Qed.

Lemma filter_all {A} (P : A → Prop) `{∀ x, Decision (P x)} (l : list A) :
  Forall P l → filter P l = l.
Proof.
  induction 1 as [|x l Hx _ IH]; [done|].
  by rewrite filter_cons, decide_True, IH.
Qed.

Lemma delete_filter_NoDup {A B} (f : A → B) `{EqDecision B} (l : list A) i x :
  NoDup (f <$> l) → l !! i = Some x → delete i l = filter (λ y, f y ≠ f x) l.
Proof.
  revert i. induction l as [|y l IH]; intros i Hnd Hi; [done|].
  rewrite fmap_cons in Hnd. apply NoDup_cons in Hnd as [Hy Hnd].
  destruct i as [|i]; cbn in Hi.
  - injection Hi as ->. rewrite filter_cons, decide_False by (by intros ?). cbn.
    symmetry. apply filter_all. rewrite Forall_forall. intros z Hz Heq.
    apply Hy. rewrite <- Heq. by apply list_elem_of_fmap_2.
  - rewrite filter_cons, decide_True.
    + cbn. f_equal. by apply IH.
    + intros Heq. apply Hy. rewrite Heq. apply list_elem_of_fmap_2.
      by eapply list_elem_of_lookup_2.
Qed.

Theorem deleteFlowButton_click_removes_current s cur :
  currentFlow s = Some cur → cur ∈ flows s → NoDup (flow_ids s) →
  ∃ s', deleteFlowButton_click s = (s', Ok tt) ∧
    persisted s' = filter (λ f, flow_id f ≠ flow_id (deref (heap s) cur)) (snapshot s) ∧
    snapshot s' = persisted s' ∧
    currentFlow s' = None ∧ currentId s' = None.
Proof.
  intros Hcur Hin Hnd. eexists. split; [by apply deleteFlowButton_click_run|].
  cbn. unfold snapshot. cbn. split_and!; try done.
  destruct (find_flow _ s) as [[i x]|] eqn:Hfind; unfold find_flow in Hfind.
  - apply list_find_Some in Hfind as (Hi & Hid & _). cbn.
    rewrite list_fmap_delete.
    rewrite (delete_filter_NoDup flow_id _ i (deref (heap s) x)).
    + by rewrite Hid.
    + exact Hnd.
    + by rewrite list_lookup_fmap, Hi.
  - apply list_find_None in Hfind. rewrite Forall_forall in Hfind.
    exfalso. by eapply Hfind.
Qed.

Lemma addFlowButton_click_run uid s :
  uid ∉ flow_ids s →
  ∃ s', addFlowButton_click uid s = (s', Ok tt) ∧
    heap s' = <[new_ref s := mkFlow uid "Untitled flow" []]> (heap s) ∧
    flows s' = (flows s ++ [new_ref s])%list ∧
    currentFlow s' = Some (new_ref s).
Proof.
  intros Huid. unfold addFlowButton_click, saveFlows.
  do 4 (erewrite bind_run by reflexivity).
  match goal with |- context [navigateToFlow ?id ?s1] =>
    destruct (navigateToFlow_lands id s1) as (s' & E & Hh & Hf & Hp & Hcur) end.
  exists s'. split; [exact E|].
  pose proof (new_ref_fresh s) as Hfresh.
  rewrite Hh, Hf. cbn. unfold find_flow in Hcur. cbn in Hcur.
  split_and!; try done.
  erewrite list_find_app_new in Hcur.
  - by destruct Hcur as [-> _].
  - rewrite Forall_forall. intros x Hx.
    rewrite deref_insert, decide_False by (intros ->; done).
    intros Heq. apply Huid. rewrite Heq. by apply elem_of_flow_ids.
  - by rewrite deref_insert, decide_True.
Qed.

Theorem add_then_delete_restores uid s :
  uid ∉ flow_ids s →
  let s1 := listener (addFlowButton_click uid) s in
  let s2 := listener deleteFlowButton_click s1 in
  persisted s2 = snapshot s ∧ snapshot s2 = snapshot s ∧ currentFlow s2 = None.
Proof.
  intros Huid s1 s2.
  destruct (addFlowButton_click_run uid s Huid) as (s' & E & Hh & Hf & Hcur).
  assert (s1 = s') as -> by (unfold s1, listener; by rewrite E).
  pose proof (new_ref_fresh s) as Hfresh.
  unfold s2, listener. rewrite (deleteFlowButton_click_run s' (new_ref s) Hcur).
  destruct s' as [h1 fl1 p1 c1]. cbn in Hh, Hf, Hcur. subst h1 fl1 c1.
  cbn. unfold snapshot, find_flow. cbn.
  erewrite list_find_app_new.
  - cbn. rewrite (delete_middle (flows s) [] (new_ref s)), app_nil_r.
    by rewrite snapshot_fresh.
  - rewrite Forall_forall. intros x Hx.
    assert (x ≠ new_ref s) as Hne by (by intros ->).
    rewrite (deref_insert _ _ _ x), decide_False by done.
    rewrite (deref_insert _ _ _ (new_ref s)), decide_True by done.
    cbn. intros Heq. apply Huid. rewrite <- Heq. by apply elem_of_flow_ids.
  - done.
Qed.

(** *** Editor commit *)

Lemma handleFlowChange_run form s cur :
  currentFlow s = Some cur →
  let updated := mkFlow (flow_id (deref (heap s) cur)) (form_name form) (read_steps form) in
  let h' := <[cur := updated]> (heap s) in
  let fl' := assign_at (list_find (λ x, flow_id (deref h' x) = flow_id updated) (flows s))
                       cur (flows s) in
  handleFlowChange form s
  = (set_persisted (deref h' <$> fl') (set_flows fl' (set_heap h' s)), Ok tt).
Proof.
  intros Hcur updated h' fl'.
  destruct s as [h fl ? c]. cbn in Hcur. subst c.
  unfold handleFlowChange, mutate, saveFlows, bind, gets, modify. cbn.
  unfold snapshot, find_flow. cbn.
  rewrite (mutate_mutate h cur (with_steps (read_steps form)) (with_name (form_name form))).
  change (with_name (form_name form) (with_steps (read_steps form) (deref h cur))) with updated.
  rewrite (deref_insert h cur updated cur), decide_True by done.
  reflexivity.
Qed.

Lemma commit_keeps_ids (h : gmap nat Flow) (fl : list nat) (r : nat) (new : Flow) :
  flow_id new = flow_id (deref h r) →
  let h' := <[r := new]> h in
  let found := list_find (λ x, flow_id (deref h' x) = flow_id new) fl in
  flow_id <$> (deref h' <$> assign_at found r fl) = flow_id <$> (deref h <$> fl).
Proof.
  intros Hid h' found.
  destruct (commit_collection h fl r new Hid) as (Hlen & Hother & Hany & _).
  fold h' found in Hlen, Hother, Hany.
  apply list_eq. intros j. rewrite !(list_lookup_fmap flow_id).
  destruct ((deref h <$> fl) !! j) as [f|] eqn:Ef.
  - destruct (decide (flow_id f = flow_id new)) as [Heq|Hne].
    + destruct (Hany j f Ef) as [E|E]; rewrite E; cbn; congruence.
    + by rewrite (Hother j f Ef Hne).
  - apply lookup_ge_None in Ef. rewrite length_fmap in Ef.
    assert ((deref h' <$> assign_at found r fl) !! j = None) as ->; [|done].
    apply lookup_ge_None. rewrite Hlen. lia.
Qed.

Lemma handleFlowChange_ids form s cur :
  currentFlow s = Some cur →
  flow_ids (listener (handleFlowChange form) s) = flow_ids s.
Proof.
  intros Hcur. unfold listener. rewrite (handleFlowChange_run form s cur Hcur).
  cbn. unfold flow_ids, snapshot. cbn.
  exact (commit_keeps_ids (heap s) (flows s) cur
           (mkFlow (flow_id (deref (heap s) cur)) (form_name form) (read_steps form)) eq_refl).
Qed.

Theorem handleFlowChange_keeps_ids form s cur :
  currentFlow s = Some cur →
  let s' := listener (handleFlowChange form) s in
  flow_ids s' = flow_ids s ∧ persisted s' = snapshot s'.
Proof.
  intros Hcur s'. split.
  - exact (handleFlowChange_ids form s cur Hcur).
  - unfold s', listener. by rewrite (handleFlowChange_run form s cur Hcur).
Qed.

(** *** Ids stay unique *)

Lemma createOrNavigateToFlow_ids uid flowTitle flowSteps s :
  let s' := (createOrNavigateToFlow uid flowTitle flowSteps s).1 in
  flow_ids s' = flow_ids s ∨ flow_ids s' = (flow_ids s ++ [uid])%list.
Proof.
  destruct (find_flow (λ flow, flow_name flow = flowTitle) s) as [[i e]|] eqn:Hfind.
  - left.
    destruct (createOrNavigateToFlow_existing_run uid flowTitle flowSteps s i e Hfind)
      as (s' & E & Hh & Hf & _).
    rewrite E. cbn. unfold flow_ids, snapshot. rewrite Hh, Hf.
    exact (commit_keeps_ids (heap s) (flows s) e
             (with_steps flowSteps (deref (heap s) e)) eq_refl).
  - right.
    destruct (createOrNavigateToFlow_new_run uid flowTitle flowSteps s Hfind)
      as (s' & E & Hh & Hf & _).
    rewrite E. cbn. unfold flow_ids, snapshot. rewrite Hh, Hf.
    rewrite snapshot_alloc by apply new_ref_fresh. by rewrite fmap_app.
Qed.

Lemma NoDup_snoc_fresh (l : list string) x : NoDup l → x ∉ l → NoDup (l ++ [x]).
Proof.
  intros Hl Hx. apply NoDup_app. split_and!; [done| |apply NoDup_singleton].
  intros y Hy ->%list_elem_of_singleton. done.
Qed.

Lemma deleteFlowButton_click_ids s :
  flow_ids (listener deleteFlowButton_click s) `sublist_of` flow_ids s.
Proof.
  destruct (currentFlow s) as [cur|] eqn:Hcur.
  - unfold listener. rewrite (deleteFlowButton_click_run s cur Hcur). cbn.
    unfold flow_ids, snapshot. cbn.
    destruct (find_flow _ s) as [[i x]|]; cbn;
      rewrite !list_fmap_delete; apply sublist_delete.
  - destruct s as [h fl p c]. cbn in Hcur. subst c.
    destruct fl; cbn; reflexivity.
Qed.

Lemma addFlowButton_click_ids uid s :
  uid ∉ flow_ids s →
  flow_ids (listener (addFlowButton_click uid) s) = (flow_ids s ++ [uid])%list.
Proof.
  intros Huid.
  destruct (addFlowButton_click_run uid s Huid) as (s' & E & Hh & Hf & _).
  unfold listener. rewrite E. cbn [fst]. unfold flow_ids, snapshot. rewrite Hh, Hf.
  rewrite snapshot_alloc by apply new_ref_fresh. by rewrite fmap_app.
Qed.

Theorem unique_ids_kept s :
  NoDup (flow_ids s) →
  (∀ form, NoDup (flow_ids (listener (handleFlowChange form) s))) ∧
  (∀ uid, uid ∉ flow_ids s →
     NoDup (flow_ids (listener (addFlowButton_click uid) s)) ∧
     ∀ flowTitle flowSteps,
       NoDup (flow_ids (createOrNavigateToFlow uid flowTitle flowSteps s).1)) ∧
  NoDup (flow_ids (listener deleteFlowButton_click s)).
Proof.
  intros Hnd. split_and!.
  - intros form. destruct (currentFlow s) as [cur|] eqn:Hcur.
    + by rewrite (handleFlowChange_ids form s cur Hcur).
    + destruct s as [h fl p c]. cbn in Hcur. by subst c.
  - intros uid Huid. split.
    + rewrite addFlowButton_click_ids by done. by apply NoDup_snoc_fresh.
    + intros flowTitle flowSteps.
      destruct (createOrNavigateToFlow_ids uid flowTitle flowSteps s) as [-> | ->];
        [done|by apply NoDup_snoc_fresh].
  - exact (sublist_NoDup _ _ Hnd (deleteFlowButton_click_ids s)).
Qed.

(** ** Run orchestrator: whole runs *)

Lemma name_file_handle i : fsHandlePromise (name_file i) = fsHandlePromise i.
Proof. unfold name_file. by destruct (falsy _). Qed.

Theorem run_cycle s first rest outputFiles :
  runDisabled s = false → inFlight s = [] → currentImages s = first :: rest →
  let k := runsStarted s in
  let s1 := click_runFlowButton s in
  let s2 := settle k (EngineOutputs outputFiles) s1 in
  engineCalls s2
    = (deref (heap s) <$> currentFlow s, map file (map name_file (first :: rest)))
      :: engineCalls s ∧
  outputImages s2 = outputFiles ∧
  shownOutputs s2 = (map source_of_output outputFiles, fsHandlePromise first) ∧
  running s2 = false ∧ runDisabled s2 = false ∧ inFlight s2 = [] ∧
  runsStarted s2 = S k.
Proof.
  intros Hd Hidle Himgs.
  destruct s as [? ? ? ? ? imgs ? ? dis ? ? ? ? fl]. cbn in Hd, Hidle, Himgs. subst.
  cbn. unfold settle. cbn. rewrite decide_True by left.
  cbn. rewrite decide_False by (by intros ?). cbn.
  split_and!; try done. by rewrite name_file_handle.
Qed.

Theorem run_inputs_removed_meanwhile s outputFiles :
  runDisabled s = false → inFlight s = [] → currentImages s ≠ [] →
  let k := runsStarted s in
  let s1 := click_runFlowButton s in
  let s2 := listener removeInputButton_click s1 in
  let s3 := settle k (EngineOutputs outputFiles) s2 in
  outputImages s3 = outputFiles ∧
  shownOutputs s3 = ([], None) ∧
  running s3 = true ∧ runDisabled s3 = true ∧ inFlight s3 = [] ∧
  click_runFlowButton s3 = s3.
Proof.
  intros Hd Hidle Himgs.
  destruct s as [? ? ? ? ? imgs ? ? dis ? ? ? ? fl]. cbn in Hd, Hidle, Himgs. subst.
  destruct imgs as [|first rest]; [done|].
  cbn. unfold settle. cbn. rewrite decide_True by left.
  cbn. rewrite decide_False by (by intros ?). cbn.
  by split_and!.
Qed.

Theorem run_engine_rejects s :
  runDisabled s = false → inFlight s = [] → currentImages s ≠ [] →
  let k := runsStarted s in
  let s1 := click_runFlowButton s in
  let s2 := settle k EngineRejects s1 in
  outputImages s2 = outputImages s ∧ shownOutputs s2 = ([], None) ∧
  running s2 = true ∧ runDisabled s2 = true ∧ inFlight s2 = [] ∧
  click_runFlowButton s2 = s2.
Proof.
  intros Hd Hidle Himgs.
  destruct s as [? ? ? ? ? imgs ? ? dis ? ? ? ? fl]. cbn in Hd, Hidle, Himgs. subst.
  destruct imgs as [|first rest]; [done|].
  cbn. unfold settle. cbn. rewrite decide_True by left.
  cbn. rewrite decide_False by (by intros ?). cbn.
  by split_and!.
Qed.

(** ** Outputs taken as inputs *)

Theorem useOutputAsInput_then_run s o outs :
  outputImages s = o :: outs → runDisabled s = false →
  let s1 := listener useOutputAsInputButton_click s in
  let s2 := click_runFlowButton s1 in
  currentImages s1 = map (λ img, mkInput (blob img) (Some (out_name img)) None) (o :: outs) ∧
  outputImages s1 = [] ∧ shownOutputs s1 = ([], None) ∧
  engineCalls s2
    = (deref (heap s) <$> currentFlow s,
       map (λ img, if falsy (file_name (blob img))
                   then mkFile (Some (out_name img)) (file_type (blob img)) (file_data (blob img))
                   else blob img) (o :: outs))
      :: engineCalls s.
Proof.
  intros Houts Hd.
  destruct s as [? ? ? ? ? imgs outs0 ? dis]. cbn in Houts, Hd. subst.
  cbn. split_and!; try done. f_equal. f_equal.
  rewrite !map_map. cbn. f_equal.
  - unfold name_file. cbn. by destruct (falsy (file_name (blob o))).
  - apply map_ext. intros img. unfold name_file. cbn.
    by destruct (falsy (file_name (blob img))).
Qed.

Theorem useOutputAsInput_idle s lc :
  let s1 := listener useOutputAsInputButton_click s in
  (outputImages s ≠ [] → outputImages s1 = [] ∧ handleless (currentImages s1)) ∧
  (outputImages s = [] → s1 = s) ∧
  (outputImages s1 = [] →
     listener useOutputAsInputButton_click s1 = s1 ∧
     listener saveImagesButton_click s1 = s1 ∧
     listener (viewImagesButton_click lc) s1 = s1).
Proof.
  destruct s as [? ? ? ? ? imgs outs]. cbn. split_and!.
  - intros Hne. destruct outs as [|o outs]; [done|]. cbn. split; [done|].
    unfold handleless. constructor; [done|]. by apply Forall_map, Forall_true.
  - by intros ->.
  - destruct outs as [|o outs]; cbn; by intros _.
Qed.

(** ** Save in place: where the writes go *)

Lemma saveImagesButton_click_state s :
  listener saveImagesButton_click s =
    if (length (currentImages s) =? length (outputImages s))%nat
    then set_writes (rev (saved_prefix (currentImages s) (outputImages s)) ++ writes s) s
    else s.
Proof.
  pose proof (save_loop_writes (outputImages s) s) as Hloop.
  destruct s as [? ? ? ? ? imgs outs]. cbn in Hloop.
  unfold listener, saveImagesButton_click, hasImagesToSave, bind, gets. cbn.
  destruct outs as [|o outs]; [destruct imgs; reflexivity|]. cbn.
  destruct (length imgs =? S (length outs))%nat; [|done]. exact Hloop.
Qed.

Lemma saved_prefix_handleless inputs outs :
  handleless inputs → saved_prefix inputs outs = [].
Proof.
  intros Hh. destruct outs as [|o outs]; [done|]. cbn. unfold save_target.
  destruct (List.find _ inputs) as [i|] eqn:Ef; [|done]. cbn.
  apply find_some in Ef as [Hin _]. unfold handleless in Hh.
  rewrite Forall_forall in Hh. rewrite (Hh i); [done|]. by apply list_elem_of_In.
Qed.

Theorem save_handleless s :
  handleless (currentImages s) → listener saveImagesButton_click s = s.
Proof.
  intros Hh. rewrite saveImagesButton_click_state, saved_prefix_handleless by done.
  by destruct (_ =? _)%nat.
Qed.

Lemma saved_prefix_sound inputs outputs h b :
  (h, b) ∈ saved_prefix inputs outputs →
  ∃ i o, i ∈ inputs ∧ o ∈ outputs ∧
    file_name (file i) = Some (out_name o) ∧
    fsHandlePromise i = Some (mkHandle h true) ∧ b = blob o.
Proof.
  induction outputs as [|o outs IH]; cbn; [by intros ?%elem_of_nil|].
  destruct (save_target inputs o) as [h0|] eqn:Et; [|by intros ?%elem_of_nil].
  intros [[= -> ->]|Hin]%elem_of_cons.
  - unfold save_target in Et.
    destruct (List.find _ inputs) as [i|] eqn:Ef; [|done]. cbn in Et.
    destruct (fsHandlePromise i) as [[hid g]|] eqn:Eh; [|done]. cbn in Et.
    destruct g; [|done]. injection Et as <-.
    apply find_some in Ef as [Hin Hname]. apply bool_decide_eq_true in Hname.
    exists i, o. split_and!; [by apply list_elem_of_In|by left|done|done|done].
  - destruct (IH Hin) as (i & o' & ? & ? & ? & ? & ?).
    exists i, o'. split_and!; [done|by right|done|done|done].
Qed.

Theorem save_writes_to_input_handles s h b :
  (h, b) ∈ writes (listener saveImagesButton_click s) →
  (h, b) ∈ writes s ∨
  ∃ i o, i ∈ currentImages s ∧ o ∈ outputImages s ∧
    file_name (file i) = Some (out_name o) ∧
    fsHandlePromise i = Some (mkHandle h true) ∧ b = blob o.
Proof.
  rewrite saveImagesButton_click_state.
  destruct (_ =? _)%nat; [|by left]. cbn.
  intros [Hin|Hin]%elem_of_app; [|by left]. right.
  apply list_elem_of_In, in_rev, list_elem_of_In in Hin. by apply saved_prefix_sound.
Qed.

Lemma saved_prefix_complete inputs outputs :
  Forall (λ o, is_Some (save_target inputs o)) outputs →
  map snd (saved_prefix inputs outputs) = map blob outputs.
Proof.
  induction 1 as [|o outs [h Ho] _ IH]; [done|].
  cbn. rewrite Ho. cbn. by rewrite IH.
Qed.

Theorem save_complete s :
  length (currentImages s) = length (outputImages s) →
  Forall (λ o, is_Some (save_target (currentImages s) o)) (outputImages s) →
  ∃ new, writes (listener saveImagesButton_click s) = (rev new ++ writes s)%list ∧
         map snd new = map blob (outputImages s).
Proof.
  intros Hlen Hall. exists (saved_prefix (currentImages s) (outputImages s)).
  split; [|by apply saved_prefix_complete].
  rewrite saveImagesButton_click_state, Hlen, Nat.eqb_refl. done.
Qed.

(** ** Write handles only come in with dropped or picked files *)

Lemma keeps_bind {A B} (P : App → Prop) (m : M A) (k : A → M B) :
  keeps P m → (∀ a, keeps P (k a)) → keeps P (bind m k).
Proof.
  intros Hm Hk s Hs. unfold bind. specialize (Hm s Hs).
  destruct (m s) as [s' [a|e]]; cbn in *; [by apply Hk|done].
Qed.

Lemma keeps_preserves {A X} (f : App → X) (Q : X → Prop) (m : M A) :
  preserves f m → keeps (λ s, Q (f s)) m.
Proof. intros Hm s Hs. by rewrite Hm. Qed.

Lemma handleless_map_name_file imgs : handleless imgs → handleless (map name_file imgs).
Proof.
  unfold handleless. intros H. apply Forall_map. eapply Forall_impl; [exact H|].
  intros i Hi. cbn. by rewrite name_file_handle.
Qed.

Lemma click_currentImages s :
  currentImages (click_runFlowButton s) = currentImages s ∨
  currentImages (click_runFlowButton s) = map name_file (currentImages s).
Proof.
  unfold click_runFlowButton. destruct (runDisabled s); [by left|].
  destruct s as [? ? ? ? ? imgs]. destruct imgs; cbn; auto.
Qed.

Lemma settle_currentImages k r s : currentImages (settle k r s) = currentImages s.
Proof.
  unfold settle. destruct (decide _); [|done].
  destruct s as [? ? ? ? ? imgs]. destruct r as [outs| |]; [destruct imgs|..]; done.
Qed.

Lemma insert_by_perm {A} (cmp : A → A → result Z) x l l' :
  insert_by cmp x l = Ok l' → (x :: l) ≡ₚ l'.
Proof.
  revert l'. induction l as [|y l IH]; intros l'; cbn.
  - by intros [= <-].
  - destruct (cmp x y) as [c|e]; cbn; [|done].
    destruct (c <=? 0)%Z; [by intros [= <-]|].
    destruct (insert_by cmp x l) as [r|e]; cbn; [|done].
    intros [= <-]. rewrite <- (IH r eq_refl). apply perm_swap.
Qed.

Lemma sort_by_perm {A} (cmp : A → A → result Z) l l' :
  sort_by cmp l = Ok l' → l ≡ₚ l'.
Proof.
  revert l'. induction l as [|x l IH]; intros l'; cbn.
  - by intros [= <-].
  - destruct (sort_by cmp l) as [r|e]; cbn; [|done].
    intros Hins%insert_by_perm. by rewrite <- Hins, <- (IH r eq_refl).
Qed.

Lemma view_currentImages lc s :
  currentImages (listener (viewImagesButton_click lc) s) ≡ₚ currentImages s.
Proof.
  destruct s as [? ? ? ? ? imgs outs].
  unfold listener, viewImagesButton_click, hasImagesToSave, bind, gets, lift, modify. cbn.
  destruct outs as [|o outs]; [done|]. cbn.
  destruct (sort_by (compare_outputs lc) (o :: outs)) as [outs'|e] eqn:Eo; cbn in Eo;
    rewrite Eo; cbn; [|done].
  destruct (sort_by (compare_inputs lc) imgs) as [imgs'|e] eqn:Ei; cbn; [|done].
  symmetry. by apply sort_by_perm in Ei.
Qed.

Lemma navigateToFlow_currentImages id : preserves currentImages (navigateToFlow id).
Proof. unfold navigateToFlow, navigateToHome. frame. Qed.

Lemma createOrNavigateToFlow_currentImages uid t st :
  preserves currentImages (createOrNavigateToFlow uid t st).
Proof.
  pose proof navigateToFlow_currentImages.
  unfold createOrNavigateToFlow, createNewFlow, mutate, saveFlows. frame.
Qed.

Lemma cleanupShareCache_currentImages sd : preserves currentImages (cleanupShareCache sd).
Proof.
  assert (∀ n i, preserves currentImages (cleanup_loop n i))
    by (induction n; intros; simpl; frame).
  unfold cleanupShareCache. frame.
Qed.

Lemma loaded_handleless sd (c : gmap string Response) (l : list Z) :
  handleless (omap (λ j, shared_image sd j <$> c !! file_key j) l).
Proof.
  unfold handleless. rewrite Forall_forall. intros i Hi.
  apply list_elem_of_omap in Hi as (j & _ & Hj).
  destruct (c !! file_key j); cbn in Hj; [|done]. by injection Hj as <-.
Qed.

Lemma loadAndProcessSharedImages_handleless sd :
  keeps (λ s, handleless (currentImages s)) (loadAndProcessSharedImages sd).
Proof.
  intros s Hs. unfold loadAndProcessSharedImages.
  erewrite bind_run by apply load_loop_spec. cbn [app].
  pose proof (loaded_handleless sd (cache s) (seqZ 0 (Z.of_nat (Z.to_nat (fileCount sd)))))
    as Hl.
  destruct (omap _ _) as [|i l]; [done|]. exact Hl.
Qed.

Lemma share_try_handleless uid : keeps (λ s, handleless (currentImages s)) (share_try uid).
Proof.
  unfold share_try.
  apply keeps_bind; [by intros s Hs|]. intros [resp|]; [|by intros s Hs].
  destruct (resp_json resp) as [sd|]; [|by intros s Hs].
  destruct (fileCount sd <=? 0)%Z; [by intros s Hs|].
  apply keeps_bind; [by intros s Hs|]. intros config.
  apply keeps_bind.
  { apply (keeps_preserves currentImages handleless), createOrNavigateToFlow_currentImages. }
  intros _. apply keeps_bind; [apply loadAndProcessSharedImages_handleless|].
  intros _. apply keeps_bind.
  { apply (keeps_preserves currentImages handleless), cleanupShareCache_currentImages. }
  by intros _ s Hs.
Qed.

Lemma handleFlowChange_currentImages form : preserves currentImages (handleFlowChange form).
Proof. unfold handleFlowChange, mutate, saveFlows. frame. Qed.

Lemma useOutputAsInput_handleless s :
  handleless (currentImages s) →
  handleless (currentImages (listener useOutputAsInputButton_click s)).
Proof.
  destruct s as [? ? ? ? ? imgs outs]. cbn. intros Hs.
  destruct outs as [|o outs]; [done|]. cbn.
  unfold handleless. constructor; [done|]. by apply Forall_map, Forall_true.
Qed.

Theorem handles_only_from_picked_files lc s ev :
  handleless (currentImages s) →
  (∀ images, ev = Drop images ∨ ev = Browse images → handleless images) →
  handleless (currentImages (step lc s ev)).
Proof.
  intros Hs Hev.
  destruct ev; cbn [step].
  - destruct (click_currentImages s) as [-> | ->]; [done|by apply handleless_map_name_file].
  - unfold timer_fires. destruct (timers s) eqn:Et; [done|].
    destruct (click_currentImages (set_timers n s)) as [-> | ->];
      [done|by apply handleless_map_name_file].
  - by rewrite settle_currentImages.
  - destruct images as [|i l]; [done|]. apply (Hev (i :: l)). by left.
  - apply (Hev images). by right.
  - constructor.
  - rewrite saveImagesButton_click_state, saved_prefix_handleless by done.
    by destruct (_ =? _)%nat.
  - by apply useOutputAsInput_handleless.
  - unfold handleless. rewrite view_currentImages. exact Hs.
  - unfold listener. by rewrite handleFlowChange_currentImages.
  - unfold listener. by rewrite navigateToFlow_currentImages.
  - done.
  - unfold processShareTargetData. destruct (negb (isShared s)); [done|].
    pose proof (share_try_handleless uid s Hs) as Ht.
    by destruct (share_try uid s) as [s' [[]|e]].
Qed.

(** ** Flow collection: the current flow stays in the collection *)

Lemma attached_view s s' :
  flows s' = flows s → currentFlow s' = currentFlow s →
  current_attached s → current_attached s'.
Proof. unfold current_attached. intros -> ->. done. Qed.

Lemma navigateToFlow_attached id s : current_attached (navigateToFlow id s).1.
Proof.
  destruct (navigateToFlow_lands id s) as (s' & E & _ & Hf & _ & Hc).
  rewrite E. cbn [fst]. intros c Hcur.
  unfold find_flow in Hc.
  destruct (list_find _ (flows s)) as [[j r]|] eqn:Ef.
  - destruct Hc as [Hc _]. rewrite Hc in Hcur. injection Hcur as <-.
    apply list_find_Some in Ef as (Hj & _). rewrite Hf. by eapply list_elem_of_lookup_2.
  - destruct Hc as [Hc _]. by rewrite Hc in Hcur.
Qed.

Lemma keeps_attached_after {A} (m : M A) id :
  never_throws m → keeps current_attached (m ;;; navigateToFlow id).
Proof.
  intros Hm s _. destruct (never_throws_run m s Hm) as (s' & a & E).
  erewrite bind_run by exact E. apply navigateToFlow_attached.
Qed.

Lemma attached_flow_view s s' :
  flow_view s' = flow_view s → current_attached s → current_attached s'.
Proof. unfold flow_view. intros [= Hf Hc]. by apply attached_view. Qed.

Lemma keeps_flow_view {A} (m : M A) : preserves flow_view m → keeps current_attached m.
Proof. intros Hm s Hs. by apply (attached_flow_view s), Hs. Qed.

Lemma lands_bind {A B} (m : M A) (k : A → M B) :
  never_throws m → (∀ a s, current_attached (k a s).1) →
  ∀ s, current_attached (bind m k s).1.
Proof.
  intros Hm Hk s. destruct (never_throws_run m s Hm) as (s' & a & E).
  erewrite bind_run by exact E. apply Hk.
Qed.

Lemma lands_ret {A B} (m : M A) (b : B) :
  (∀ s, current_attached (m s).1) → ∀ s, current_attached ((m ;;; ret b) s).1.
Proof.
  intros Hm s. unfold bind. specialize (Hm s). by destruct (m s) as [s' [a|e]].
Qed.

Lemma addFlowButton_click_attached uid s :
  current_attached (listener (addFlowButton_click uid) s).
Proof.
  unfold listener, addFlowButton_click, saveFlows.
  do 4 (apply lands_bind; [totality|intros]). apply navigateToFlow_attached.
Qed.

Lemma createOrNavigateToFlow_attached uid t st s :
  current_attached (createOrNavigateToFlow uid t st s).1.
Proof.
  unfold createOrNavigateToFlow, createNewFlow, mutate, saveFlows.
  apply lands_bind; [totality|]. intros [[j existing]|] s'.
  - do 4 (apply lands_bind; [totality|intros]).
    apply lands_ret, navigateToFlow_attached.
  - do 4 (apply lands_bind; [totality|intros]).
    apply lands_ret, navigateToFlow_attached.
Qed.

Lemma loadAndProcessSharedImages_flow_view sd :
  preserves flow_view (loadAndProcessSharedImages sd).
Proof.
  assert (∀ n i acc, preserves flow_view (load_loop sd n i acc))
    by (induction n; intros; simpl; frame).
  unfold loadAndProcessSharedImages, populateInputImages. frame.
Qed.

Lemma cleanupShareCache_flow_view sd : preserves flow_view (cleanupShareCache sd).
Proof.
  assert (∀ n i, preserves flow_view (cleanup_loop n i))
    by (induction n; intros; simpl; frame).
  unfold cleanupShareCache. frame.
Qed.

Lemma share_try_attached uid : keeps current_attached (share_try uid).
Proof.
  unfold share_try.
  apply keeps_bind; [by intros s Hs|]. intros [resp|]; [|by intros s Hs].
  destruct (resp_json resp) as [sd|]; [|by intros s Hs].
  destruct (fileCount sd <=? 0)%Z; [by intros s Hs|].
  apply keeps_bind; [by intros s Hs|]. intros config.
  apply keeps_bind; [intros s _; apply createOrNavigateToFlow_attached|].
  intros _. apply keeps_bind; [apply keeps_flow_view, loadAndProcessSharedImages_flow_view|].
  intros _. apply keeps_bind; [apply keeps_flow_view, cleanupShareCache_flow_view|].
  by intros _ s Hs.
Qed.

Lemma processShareTargetData_attached uid s :
  current_attached s → current_attached (processShareTargetData uid s).
Proof.
  intros Hs. unfold processShareTargetData. destruct (negb (isShared s)); [done|].
  pose proof (share_try_attached uid s Hs) as Ht.
  by destruct (share_try uid s) as [s' [[]|e]].
Qed.

Lemma handleFlowChange_attached form s :
  current_attached s → current_attached (listener (handleFlowChange form) s).
Proof.
  intros Hs. destruct (currentFlow s) as [cur|] eqn:Hcur.
  - unfold listener. rewrite (handleFlowChange_run form s cur Hcur).
    specialize (Hs cur Hcur).
    destruct s as [h fl p c]. cbn in Hcur, Hs. subst c. cbn.
    intros c [= <-]. cbn.
    destruct (list_find _ fl) as [[j x]|] eqn:Ef; cbn; [|done].
    apply list_find_Some in Ef as (Hj & _).
    apply list_elem_of_lookup. exists j. apply list_lookup_insert_eq.
    by eapply lookup_lt_Some.
  - destruct s as [h fl p c]. cbn in Hcur. by subst c.
Qed.

Lemma deleteFlowButton_click_attached s :
  current_attached s → current_attached (listener deleteFlowButton_click s).
Proof.
  intros Hs. destruct (currentFlow s) as [cur|] eqn:Hcur.
  - unfold listener. rewrite (deleteFlowButton_click_run s cur Hcur). by intros c.
  - destruct s as [h fl p c]. cbn in Hcur. subst c. by destruct fl.
Qed.

Lemma click_flow_view s : flow_view (click_runFlowButton s) = flow_view s.
Proof.
  unfold click_runFlowButton. destruct (runDisabled s); [done|].
  assert (preserves flow_view runFlowButton_click) as H
    by (unfold runFlowButton_click; frame).
  apply H.
Qed.

Lemma settle_flow_view k r s : flow_view (settle k r s) = flow_view s.
Proof.
  unfold settle. destruct (decide _); [|done].
  assert (preserves flow_view (runFlowButton_resume r)) as H
    by (unfold runFlowButton_resume; frame).
  unfold listener. by rewrite H.
Qed.

Lemma save_flow_view : preserves flow_view saveImagesButton_click.
Proof.
  assert (∀ outs, preserves flow_view (save_loop outs))
    by (induction outs; simpl; frame).
  unfold saveImagesButton_click. frame.
Qed.

Lemma attached_found s cur :
  current_attached s → currentFlow s = Some cur →
  is_Some (find_flow (λ f, flow_id f = flow_id (deref (heap s) cur)) s).
Proof.
  intros Hs Hcur. unfold find_flow.
  destruct (list_find _ (flows s)) as [p|] eqn:Ef; [by eexists|].
  exfalso. rewrite list_find_None, Forall_forall in Ef.
  by apply (Ef cur (Hs cur Hcur)).
Qed.

Theorem current_flow_attached lc s :
  current_attached s →
  (∀ ev, current_attached (step lc s ev)) ∧
  (∀ uid, current_attached (listener (addFlowButton_click uid) s)) ∧
  current_attached (listener deleteFlowButton_click s) ∧
  (∀ cur, currentFlow s = Some cur →
     is_Some (find_flow (λ f, flow_id f = flow_id (deref (heap s) cur)) s)).
Proof.
  intros Hs. split_and!.
  - intros ev. destruct ev; cbn [step].
    + by apply (attached_flow_view s), Hs; apply click_flow_view.
    + unfold timer_fires. destruct (timers s) eqn:Et; [done|].
      by apply (attached_flow_view s), Hs; rewrite click_flow_view.
    + by apply (attached_flow_view s), Hs; apply settle_flow_view.
    + apply (attached_flow_view s), Hs.
      assert (preserves flow_view (drop images)) as H
        by (unfold drop, populateInputImages; frame). apply H.
    + apply (attached_flow_view s), Hs.
      assert (preserves flow_view (browseImagesButton_click images)) as H
        by (unfold browseImagesButton_click, populateInputImages; frame). apply H.
    + by apply (attached_flow_view s), Hs.
    + apply (attached_flow_view s), Hs. apply save_flow_view.
    + apply (attached_flow_view s), Hs.
      assert (preserves flow_view useOutputAsInputButton_click) as H
        by (unfold useOutputAsInputButton_click, populateInputImages; frame). apply H.
    + apply (attached_flow_view s), Hs.
      assert (preserves flow_view (viewImagesButton_click lc)) as H
        by (unfold viewImagesButton_click; frame). apply H.
    + by apply handleFlowChange_attached.
    + apply navigateToFlow_attached.
    + by intros c.
    + by apply processShareTargetData_attached.
  - intros uid. apply addFlowButton_click_attached.
  - by apply deleteFlowButton_click_attached.
  - intros cur. by apply attached_found.
Qed.

(** ** Flow list buttons leave the images and the run alone *)

Theorem flow_buttons_leave_session uid s :
  session_view (listener (addFlowButton_click uid) s) = session_view s ∧
  session_view (listener deleteFlowButton_click s) = session_view s ∧
  (single_flight s →
   single_flight (listener (addFlowButton_click uid) s) ∧
   single_flight (listener deleteFlowButton_click s)).
Proof.
  assert (preserves session_view (navigateToFlow uid)) as Hnav
    by (unfold navigateToFlow, navigateToHome; frame).
  assert (preserves session_view (addFlowButton_click uid)) as Hadd
    by (unfold addFlowButton_click, saveFlows; frame).
  assert (preserves session_view deleteFlowButton_click) as Hdel
    by (unfold deleteFlowButton_click, saveFlows, navigateToHome; frame).
  split_and!.
  - apply Hadd.
  - apply Hdel.
  - intros Hs. split; apply (single_flight_view s); try exact Hs.
    + exact (f_equal (λ v, v.1.1.1.1.1.1.1) (Hadd s)).
    + exact (f_equal (λ v, v.1.1.1.1.1.1.1) (Hdel s)).
Qed.

(** ** Image viewer: viewing again *)

Lemma sort_by_sorted_id {A} (cmp : A → A → result Z) (le : A → A → Prop) (l : list A) :
  (∀ x y, x ∈ l → le x y → ∃ c, cmp x y = Ok c ∧ (c <= 0)%Z) →
  Sorted le l → sort_by cmp l = Ok l.
Proof.
  intros Hcmp. induction 1 as [|x l Hs IH Hhd]; [done|].
  cbn. rewrite IH by (intros a b Ha; apply Hcmp; by right). cbn.
  destruct Hhd as [|y l' Hxy]; [done|]. cbn.
  destruct (Hcmp x y) as (c & -> & Hc); [by left|done|]. cbn.
  by destruct (Z.leb_spec c 0); [|lia].
Qed.

Section ViewAgain.

Variable localeCompare : string → string → Z.
Hypothesis localeCompare_total : ∀ a b, (localeCompare a b <= 0 ∨ localeCompare b a <= 0)%Z.

Theorem view_again_changes_nothing s :
  hasImagesToSave s = true → Forall named (currentImages s) →
  let s1 := listener (viewImagesButton_click localeCompare) s in
  listener (viewImagesButton_click localeCompare) s1 = s1.
Proof.
  intros Hhas Hnamed.
  destruct (sort_outputs localeCompare localeCompare_total (outputImages s))
    as (outs' & Eo & Po & So).
  destruct (sort_inputs localeCompare localeCompare_total (currentImages s) Hnamed)
    as (imgs' & Ei & Pi & Si).
  assert (sort_by (compare_outputs localeCompare) outs' = Ok outs') as Eo'.
  { apply (sort_by_sorted_id _ _ _ (λ x y _ Hle, ex_intro _ _ (conj eq_refl Hle)) So). }
  assert (sort_by (compare_inputs localeCompare) imgs' = Ok imgs') as Ei'.
  { apply (sort_by_sorted_id _ (λ a b, name_le localeCompare (input_name a) (input_name b)));
      [|done].
    intros x y Hx Hle. rewrite <- Pi in Hx.
    rewrite Forall_forall in Hnamed. specialize (Hnamed x Hx).
    unfold named, compare_inputs, input_name, name_le in *.
    destruct (file_name (file x)); [|done]. eexists. split; [reflexivity|done]. }
  assert (outs' ≠ []) as Hne.
  { intros ->. apply Permutation_nil_r in Po.
    unfold hasImagesToSave in Hhas. by rewrite Po in Hhas. }
  destruct s as [? ? ? ? ? imgs outs]. cbn in Hnamed, Eo, Po, Ei, Pi, Hhas.
  unfold listener, viewImagesButton_click, bind, gets, lift, modify. cbn.
  rewrite Hhas. cbn. rewrite Eo, Ei. cbn.
  unfold hasImagesToSave. cbn.
  destruct outs' as [|o outs']; [done|]. cbn -[sort_by]. rewrite Eo'. cbn -[sort_by].
  rewrite Ei'. cbn. reflexivity.
Qed.

End ViewAgain.
(** ** Share-target consumer: what cleanup leaves alone *)

Lemma cleanup_loop_frame n : ∀ i s k,
  (∀ j, i <= j < i + Z.of_nat n → k ≠ file_key j) →
  cache (cleanup_loop n i s).1 !! k = cache s !! k.
Proof.
  induction n as [|n IH]; intros i s k Hk; [done|].
  cbn [cleanup_loop]. erewrite bind_run by reflexivity.
  rewrite IH by (intros j Hj; apply Hk; lia).
  cbn. apply lookup_delete_ne. intros Heq. eapply (Hk i); [lia|done].
Qed.

Lemma cleanupShareCache_frame sd s k :
  k ≠ manifest_key → (∀ i, 0 <= i < fileCount sd → k ≠ file_key i) →
  cache (cleanupShareCache sd s).1 !! k = cache s !! k.
Proof.
  intros Hk Hki. unfold cleanupShareCache. erewrite bind_run by reflexivity.
  rewrite cleanup_loop_frame by (intros j Hj; apply Hki; lia).
  cbn. by apply lookup_delete_ne.
Qed.

Theorem cleanupShareCache_only_its_keys sd s :
  ∃ c', cleanupShareCache sd s = (set_cache c' s, Ok tt) ∧
    c' !! manifest_key = None ∧
    (∀ i, 0 <= i < fileCount sd → c' !! file_key i = None) ∧
    (∀ k, k ≠ manifest_key → (∀ i, 0 <= i < fileCount sd → k ≠ file_key i) →
          c' !! k = cache s !! k).
Proof.
  destruct (cleanupShareCache_spec sd s) as (c' & E & Hm & Hf).
  exists c'. split_and!; try done.
  intros k Hk Hki. pose proof (cleanupShareCache_frame sd s k Hk Hki) as Hframe.
  by rewrite E in Hframe.
Qed.

(** ** Share-target consumer: the whole activation *)

Lemma shared_image_named sd i resp : named (shared_image sd i resp).
Proof.
  unfold named, shared_image, shared_file_name. cbn.
  destruct (fileNames sd ≫= _) as [n|]; [|done].
  cbn. by destruct (bool_decide (n = "")) eqn:E.
Qed.

Lemma loaded_named sd (c : gmap string Response) (l : list Z) :
  Forall named (omap (λ j, shared_image sd j <$> c !! file_key j) l).
Proof.
  rewrite Forall_forall. intros i Hi.
  apply list_elem_of_omap in Hi as (j & _ & Hj).
  destruct (c !! file_key j); cbn in Hj; [|done]. injection Hj as <-.
  apply shared_image_named.
Qed.

Lemma share_processed uid s resp sd config :
  isShared s = true →
  cache s !! manifest_key = Some resp →
  resp_json resp = Some sd →
  0 < fileCount sd →
  determineFlowConfiguration sd = Ok config →
  let loaded :=
    omap (λ i, shared_image sd i <$> cache s !! file_key i) (seqZ 0 (fileCount sd)) in
  ∃ s1 target c',
    createOrNavigateToFlow uid config.1 config.2 s = (s1, Ok target) ∧
    processShareTargetData uid s
    = set_query [] (set_cache c'
        match loaded with
        | [] => s1
        | _ :: _ => set_timers (S (timers s1))
                      (set_shownInputs (map source_of_input loaded)
                         (set_currentImages loaded s1))
        end).
Proof.
  intros Hshared Hmanifest Hjson Hcount Hconfig loaded.
  destruct (never_throws_run (createOrNavigateToFlow uid config.1 config.2) s
              (createOrNavigateToFlow_total _ _ _)) as (s1 & target & E1).
  pose proof (createOrNavigateToFlow_cache uid config.1 config.2 s) as Hc1.
  rewrite E1 in Hc1. cbn in Hc1.
  destruct s1 as [h1 f1 p1 cf1 ci1 im1 o1 r1 d1 si1 so1 v1 e1 if1 rs1 c1 q1 t1 w1].
  cbn in Hc1. subst c1.
  match type of E1 with _ = (?st, _) => set (s1 := st) in * end.
  set (s2 := match loaded with
             | [] => s1
             | _ :: _ => set_timers (S (timers s1))
                           (set_shownInputs (map source_of_input loaded)
                              (set_currentImages loaded s1))
             end).
  assert (loadAndProcessSharedImages sd s1 = (s2, Ok tt)) as E2.
  { unfold loadAndProcessSharedImages.
    erewrite bind_run by apply load_loop_spec. cbn [app].
    rewrite seqZ_to_nat. cbn. unfold s2, loaded.
    destruct (omap _ _); reflexivity. }
  destruct (cleanupShareCache_spec sd s2) as (c' & E3 & _).
  exists s1, target, c'. split; [done|].
  assert (share_try uid s = (set_cache c' s2, Ok Completed)) as Etry.
  { unfold share_try. erewrite bind_run by reflexivity.
    rewrite Hmanifest, Hjson.
    destruct (Z.leb_spec (fileCount sd) 0) as [|_]; [lia|].
    erewrite bind_run by (unfold lift; rewrite Hconfig; reflexivity).
    erewrite bind_run by exact E1.
    erewrite bind_run by exact E2.
    erewrite bind_run by exact E3. reflexivity. }
  unfold processShareTargetData. rewrite Hshared, Etry. reflexivity.
Qed.

Lemma createOrNavigateToFlow_frame uid t st :
  preserves (λ s, (timers s, engineCalls s, runDisabled s, currentImages s, query s))
            (createOrNavigateToFlow uid t st).
Proof.
  assert (∀ id, preserves (λ s, (timers s, engineCalls s, runDisabled s, currentImages s, query s))
                          (navigateToFlow id))
    by (intros; unfold navigateToFlow, navigateToHome; frame).
  unfold createOrNavigateToFlow, createNewFlow, mutate, saveFlows. frame.
Qed.

Lemma createOrNavigateToFlow_target uid flowTitle flowSteps s :
  uid ∉ flow_ids s →
  ∃ s1 target,
    createOrNavigateToFlow uid flowTitle flowSteps s = (s1, Ok target) ∧
    currentFlow s1 = Some target ∧
    flow_steps (deref (heap s1) target) = flowSteps.
Proof.
  intros Huid.
  destruct (find_flow (λ flow, flow_name flow = flowTitle) s) as [[i e]|] eqn:Hfind.
  - destruct (createOrNavigateToFlow_existing_run uid flowTitle flowSteps s i e Hfind)
      as (s' & E & Hh & _ & _ & Hcur & _).
    exists s', e. split_and!; [done|done|].
    rewrite Hh. by rewrite deref_insert, decide_True.
  - destruct (createOrNavigateToFlow_new_run uid flowTitle flowSteps s Hfind)
      as (s' & E & Hh & _ & _ & Hcur).
    exists s', (new_ref s). destruct (Hcur Huid) as [Hc _]. split_and!; [done|done|].
    rewrite Hh. by rewrite deref_insert, decide_True.
Qed.

Theorem share_auto_run uid s resp sd config first rest :
  isShared s = true →
  cache s !! manifest_key = Some resp →
  resp_json resp = Some sd →
  0 < fileCount sd →
  determineFlowConfiguration sd = Ok config →
  omap (λ i, shared_image sd i <$> cache s !! file_key i) (seqZ 0 (fileCount sd))
    = first :: rest →
  uid ∉ flow_ids s →
  runDisabled s = false →
  let s' := processShareTargetData uid s in
  currentImages s' = first :: rest ∧
  timers s' = S (timers s) ∧
  query s' = [] ∧
  (∃ target, currentFlow s' = Some target ∧
             flow_steps (deref (heap s') target) = config.2) ∧
  engineCalls (timer_fires s')
    = (deref (heap s') <$> currentFlow s', map file (first :: rest)) :: engineCalls s.
Proof.
  intros Hshared Hmanifest Hjson Hcount Hconfig Hloaded Huid Hd.
  destruct (share_processed uid s resp sd config Hshared Hmanifest Hjson Hcount Hconfig)
    as (s1 & target & c' & E1 & Eproc).
  rewrite Hloaded in Eproc.
  destruct (createOrNavigateToFlow_target uid config.1 config.2 s Huid)
    as (s1' & target' & E1' & Hcur & Hsteps).
  rewrite E1 in E1'. injection E1' as <- <-.
  pose proof (createOrNavigateToFlow_frame uid config.1 config.2 s) as Hframe.
  rewrite E1 in Hframe. cbn in Hframe.
  pose proof (loaded_named sd (cache s) (seqZ 0 (fileCount sd))) as Hnamed.
  rewrite Hloaded in Hnamed.
  destruct s1 as [h1 f1 p1 cf1 ci1 im1 o1 r1 d1 si1 so1 v1 e1 if1 rs1 c1 q1 t1 w1].
  cbn in Hcur, Hsteps, Hframe. injection Hframe as -> -> -> -> ->. subst cf1.
  intros s'. subst s'. rewrite Eproc. cbn.
  split_and!; try done.
  - by exists target.
  - unfold timer_fires, click_runFlowButton. cbn. rewrite Hd. cbn.
    f_equal. f_equal. f_equal.
    + apply Forall_cons in Hnamed as [Hf _]. unfold name_file. unfold named in Hf.
      by rewrite Hf.
    + rewrite name_file_named; [done|]. by apply Forall_cons in Hnamed as [_ ?].
Qed.

Theorem share_without_blobs uid s resp sd config :
  isShared s = true →
  cache s !! manifest_key = Some resp →
  resp_json resp = Some sd →
  0 < fileCount sd →
  determineFlowConfiguration sd = Ok config →
  (∀ i, 0 <= i < fileCount sd → cache s !! file_key i = None) →
  uid ∉ flow_ids s →
  let s' := processShareTargetData uid s in
  currentImages s' = currentImages s ∧ timers s' = timers s ∧
  query s' = [] ∧
  ∃ target, currentFlow s' = Some target ∧
            flow_steps (deref (heap s') target) = config.2.
Proof.
  intros Hshared Hmanifest Hjson Hcount Hconfig Hnone Huid.
  destruct (share_processed uid s resp sd config Hshared Hmanifest Hjson Hcount Hconfig)
    as (s1 & target & c' & E1 & Eproc).
  assert (omap (λ i, shared_image sd i <$> cache s !! file_key i) (seqZ 0 (fileCount sd))
          = []) as Hloaded.
  { destruct (omap _ _) as [|img l] eqn:E; [done|]. exfalso.
    assert (img ∈ img :: l) as Hin by left. rewrite <- E in Hin.
    apply list_elem_of_omap in Hin as (j & Hj & Himg).
    apply elem_of_seqZ in Hj. rewrite Hnone in Himg by lia. done. }
  rewrite Hloaded in Eproc.
  destruct (createOrNavigateToFlow_target uid config.1 config.2 s Huid)
    as (s1' & target' & E1' & Hcur & Hsteps).
  rewrite E1 in E1'. injection E1' as <- <-.
  pose proof (createOrNavigateToFlow_frame uid config.1 config.2 s) as Hframe.
  rewrite E1 in Hframe. cbn in Hframe.
  destruct s1 as [h1 f1 p1 cf1 ci1 im1 o1 r1 d1 si1 so1 v1 e1 if1 rs1 c1 q1 t1 w1].
  cbn in Hcur, Hsteps, Hframe. injection Hframe as -> -> -> -> ->. subst cf1.
  intros s'. subst s'. rewrite Eproc. cbn.
  split_and!; try done. by exists target.
Qed.

Lemma bind_never {A B} (m : M A) (k : A → M B) (b : B) s :
  (∀ a s', (k a s').2 ≠ Ok b) → (bind m k s).2 ≠ Ok b.
Proof.
  intros Hk. unfold bind. destruct (m s) as [s' [a|e]]; [apply Hk|by cbn].
Qed.

Theorem share_scrub_after_processing uid s resp :
  isShared s = true →
  cache s !! manifest_key = Some resp →
  (resp_json resp = None ∨ ∃ sd, resp_json resp = Some sd ∧ 0 < fileCount sd) →
  query (processShareTargetData uid s) = [] ∧
  isShared (processShareTargetData uid s) = false.
Proof.
  intros Hshared Hmanifest Hjson.
  assert (query (processShareTargetData uid s) = []) as Hq.
  { apply processShareTargetData_scrubs; [done|].
    unfold share_try. erewrite bind_run by reflexivity. rewrite Hmanifest.
    destruct Hjson as [-> | (sd & -> & Hcount)]; [by cbn|].
    destruct (Z.leb_spec (fileCount sd) 0) as [|_]; [lia|].
    apply bind_never. intros config s1.
    apply bind_never. intros target s2.
    apply bind_never. intros _ s3.
    apply bind_never. intros _ s4. by cbn. }
  split; [done|]. unfold isShared. by rewrite Hq.
Qed.

(** ** Intent resolver: when the defaults apply *)

Lemma default_title_nonempty sd : default_title sd ≠ "".
Proof.
  unfold default_title. destruct (title sd) as [t|]; [|done].
  by destruct (decide (t = "")).
Qed.

Theorem determineFlowConfiguration_default sd :
  (∀ u, url sd = Some u →
        JsString.startsWith scheme (JsString.trim u) = false ∨ JsString.trim u = scheme) →
  determineFlowConfiguration sd = Ok (default_title sd, resize_step 1000) ∧
  default_title sd ≠ "" ∧
  (∀ t, title sd = Some t → t ≠ "" → default_title sd = t).
Proof.
  intros Hurl. split_and!.
  - unfold determineFlowConfiguration. destruct (url sd) as [u|]; [|done].
    destruct (negb (falsy (Some u)) && _); [|done].
    destruct (Hurl u eq_refl) as [-> | ->]; [done|]. by vm_compute.
  - apply default_title_nonempty.
  - intros t Ht Hne. unfold default_title. rewrite Ht. by rewrite decide_False.
Qed.

(** ** Protocol activation *)

Lemma get_param_filter_other k (q : list (string * string)) :
  get_param k (filter (λ kv, kv.1 ≠ k) q) = None.
Proof.
  unfold get_param. destruct (List.find _ _) as [kv|] eqn:E; [|done].
  apply find_some in E as [Hin Hk]. apply bool_decide_eq_true in Hk.
  apply list_elem_of_In, list_elem_of_filter in Hin as [Hne _]. done.
Qed.

Lemma find_filter_other (k k' : string) (q : list (string * string)) :
  k ≠ k' →
  List.find (λ kv, bool_decide (kv.1 = k)) (filter (λ kv, kv.1 ≠ k') q)
  = List.find (λ kv, bool_decide (kv.1 = k)) q.
Proof.
  intros Hne. induction q as [|kv q IH]; [done|].
  rewrite filter_cons. destruct (decide (kv.1 ≠ k')) as [Hk|Hk]; cbn.
  - by rewrite IH.
  - apply dec_stable in Hk. rewrite bool_decide_false by congruence. done.
Qed.

Theorem logProtocolActivation_once s :
  let s' := logProtocolActivation s in
  (∀ v, get_param "url" (query s') = Some v → JsString.startsWith "web+wami:" v = false) ∧
  filter (λ kv, kv.1 ≠ "url") (query s') = filter (λ kv, kv.1 ≠ "url") (query s) ∧
  logProtocolActivation s' = s' ∧
  isShared s' = isShared s.
Proof.
  unfold logProtocolActivation, isShared.
  destruct (get_param "url" (query s)) as [v|] eqn:Eg.
  - destruct (negb (falsy (Some v)) && JsString.startsWith "web+wami:" v) eqn:Ev.
    + cbn -[get_param filter JsString.startsWith List.find].
      rewrite get_param_filter_other. split_and!; try done.
      * rewrite list_filter_filter. apply list_filter_iff. intros; tauto.
      * by rewrite find_filter_other.
    + cbn -[get_param filter JsString.startsWith List.find falsy].
      rewrite Eg, Ev. split_and!; try done.
      intros v' [= <-]. apply andb_false_iff in Ev as [Ev|Ev]; [|done].
      apply negb_false_iff in Ev. cbn in Ev. apply bool_decide_eq_true in Ev.
      by subst v.
  - cbn -[get_param filter JsString.startsWith List.find falsy].
    rewrite Eg. by split_and!.
Qed.

(** ** Intent resolver: shape of what a URL resolves to *)

Lemma width_of_nonzero segment : width_of segment ≠ 0.
Proof.
  unfold width_of. destruct (segment ≫= JsString.parseInt) as [w|]; [|done].
  destruct (Z.eqb_spec w 0); [done|done].
Qed.

Theorem parseWebWamiUrl_one_step url t steps :
  parseWebWamiUrl url = Ok (Some (t, steps)) →
  steps = [mkStep "rotate" [PNum 90]] ∨ steps = [mkStep "flip" []] ∨
  steps = [mkStep "paint" [PNum 5]] ∨ steps = [mkStep "sepia-tone" [PNum 80]] ∨
  steps = [mkStep "blur" [PNum 3]] ∨ steps = [mkStep "negate" []] ∨
  ∃ width, width ≠ 0 ∧ steps = [mkStep "resize-width-if-larger" [PNum width]].
Proof.
  unfold parseWebWamiUrl.
  destruct (bool_decide _ || bool_decide _); [done|].
  destruct (JsString.decodeURIComponent _) as [decoded|e]; [|done]. cbn [rbind].
  intros [= _ <-].
  do 6 (match goal with |- context [if ?b then _ else _] => destruct b end; [tauto|]).
  match goal with |- context [if ?b then _ else _] => destruct b end.
  - do 6 right. eexists. split; [apply width_of_nonzero|reflexivity].
  - do 6 right. exists 1000. done.
Qed.

(** ** Characters through the string primitives *)

Lemma chars_substring_from n : ∀ s c,
  c ∈ chars (JsString.substring_from n s) → c ∈ chars s.
Proof.
  induction n as [|n IH]; intros [|a s] c; cbn; try done.
  intros Hc. right. by apply IH.
Qed.

Lemma chars_trimStart_fuel fuel : ∀ s c,
  c ∈ chars (JsString.trimStart_fuel fuel s) → c ∈ chars s.
Proof.
  induction fuel as [|fuel IH]; intros s c; cbn [JsString.trimStart_fuel]; [done|].
  destruct (JsString.first_prefix _ s) as [n|]; [|done].
  intros Hc. eapply chars_substring_from, IH, Hc.
Qed.

Lemma chars_trimEnd_fuel fuel : ∀ s c,
  c ∈ chars (JsString.trimEnd_fuel fuel s) → c ∈ chars s.
Proof.
  induction fuel as [|fuel IH]; intros s c; cbn [JsString.trimEnd_fuel]; [done|].
  destruct (JsString.first_suffix _ s) as [n|]; [|done].
  intros Hc. eapply chars_substring_from, IH, Hc.
Qed.

Lemma chars_rev s c : c ∈ chars (JsString.rev s) → c ∈ chars s.
Proof.
  unfold chars, JsString.rev. rewrite list_ascii_of_string_of_list_ascii.
  rewrite !list_elem_of_In. apply in_rev.
Qed.

Lemma chars_trim s c : c ∈ chars (JsString.trim s) → c ∈ chars s.
Proof.
  unfold JsString.trim, JsString.trimEnd, JsString.trimStart.
  intros Hc. apply chars_rev in Hc. apply chars_trimEnd_fuel in Hc.
  apply chars_rev in Hc. by eapply chars_trimStart_fuel.
Qed.

Lemma chars_collapse_slashes b s : "/"%char ∉ chars (JsString.collapse_slashes b s).
Proof.
  revert b. induction s as [|c s IH]; intros b; cbn; [by intros ?%elem_of_nil|].
  destruct (Ascii.eqb_spec c "/").
  - destruct b; [apply IH|]. cbn. intros [?|?]%elem_of_cons; [done|by eapply IH].
  - cbn. intros [?|?]%elem_of_cons; [done|by eapply IH].
Qed.

Theorem parseWebWamiUrl_title_without_slash url t steps :
  parseWebWamiUrl url = Ok (Some (t, steps)) → "/"%char ∉ chars t.
Proof.
  unfold parseWebWamiUrl.
  destruct (bool_decide _ || bool_decide _); [done|].
  destruct (JsString.decodeURIComponent _) as [decoded|e]; [|done]. cbn [rbind].
  intros [= <- _] Hc%chars_trim. by eapply chars_collapse_slashes.
Qed.

(** ** Percent decoding *)

Lemma tokens_plain s :
  "%"%char ∉ chars s → JsString.tokens s = map JsString.Lit (chars s).
Proof.
  induction s as [|c s IH]; [done|]. cbn [chars list_ascii_of_string]. intros Hc.
  cbn [JsString.tokens]. destruct (Ascii.eqb_spec c "%") as [->|_].
  - exfalso. apply Hc. left.
  - cbn. rewrite IH; [done|]. intros ?. apply Hc. by right.
Qed.

Lemma decode_plain l p :
  JsString.due p = O →
  JsString.decode (map JsString.Lit l) p = Ok (string_of_list_ascii l).
Proof.
  intros Hp. induction l as [|c l IH]; cbn; rewrite Hp; [done|]. by rewrite IH.
Qed.

Theorem decodeURIComponent_plain s :
  "%"%char ∉ chars s → JsString.decodeURIComponent s = Ok s.
Proof.
  intros Hs. unfold JsString.decodeURIComponent.
  rewrite tokens_plain, decode_plain by done.
  unfold chars. by rewrite string_of_list_ascii_of_string.
Qed.

Theorem determineFlowConfiguration_without_percent sd :
  (∀ u, url sd = Some u → "%"%char ∉ chars u) →
  ∃ config, determineFlowConfiguration sd = Ok config.
Proof.
  intros Hurl. unfold determineFlowConfiguration.
  destruct (url sd) as [u|]; [|by eexists].
  specialize (Hurl u eq_refl).
  destruct (negb (falsy (Some u)) && _); [|by eexists].
  destruct (JsString.startsWith scheme (JsString.trim u)); [|by eexists].
  unfold parseWebWamiUrl.
  destruct (bool_decide _ || bool_decide _); [by eexists|].
  unfold JsString.decodeURIComponent. rewrite tokens_plain, decode_plain; [by eexists|done|].
  intros Hc%chars_substring_from%chars_trim. done.
Qed.

(** ** Decimal index in a cache key *)

Lemma dec_digit_chr d :
  0 <= d <= 9 → JsString.dec_digit (JsString.chr (48 + d)) = Some d.
Proof.
  intros Hd.
  assert (d = 0 ∨ d = 1 ∨ d = 2 ∨ d = 3 ∨ d = 4 ∨ d = 5 ∨ d = 6 ∨ d = 7 ∨ d = 8 ∨ d = 9)
    as Hcases by lia.
  repeat destruct Hcases as [-> | Hcases]; try subst d; reflexivity.
Qed.

Lemma to_decimal_fuel_digits fuel : ∀ n rest,
  0 <= n → (Z.to_nat n < fuel)%nat →
  ∃ k, 0 <= k ∧ ∀ o,
    JsString.digits 10 JsString.dec_digit o (JsString.to_decimal_fuel fuel n rest)
    = JsString.digits 10 JsString.dec_digit (Some (10 ^ k * default 0 o + n)) rest.
Proof.
  induction fuel as [|fuel IH]; intros n rest Hn Hfuel; [lia|].
  cbn [JsString.to_decimal_fuel].
  destruct (Z.ltb_spec n 10) as [Hsmall|Hbig].
  - exists 1. split; [lia|]. intros o. cbn [JsString.digits].
    rewrite dec_digit_chr by (pose proof (Z.mod_pos_bound n 10); lia).
    rewrite Z.mod_small by lia. f_equal.
  - destruct (IH (n / 10) (String (JsString.chr (48 + n mod 10)) rest)) as (k & Hk & Hdig).
    + apply Z.div_pos; lia.
    + assert (n / 10 < n) by (apply Z.div_lt; lia).
      assert (0 <= n / 10) by (apply Z.div_pos; lia). lia.
    + exists (k + 1). split; [lia|]. intros o. rewrite Hdig.
      cbn [JsString.digits]. rewrite dec_digit_chr by (pose proof (Z.mod_pos_bound n 10); lia).
      cbn [default]. f_equal. f_equal.
      rewrite Z.pow_add_r, Z.pow_1_r by lia.
      pose proof (Z.div_mod n 10 ltac:(lia)) as Hdm. unfold id.
      set (q := n / 10) in *. set (r := n mod 10) in *.
      clearbody q r. subst n. ring.
Qed.

Lemma to_decimal_digits n :
  0 <= n → JsString.digits 10 JsString.dec_digit None (JsString.to_decimal n) = Some n.
Proof.
  intros Hn. unfold JsString.to_decimal.
  destruct (Z.ltb_spec n 0); [lia|].
  destruct (to_decimal_fuel_digits (S (Z.to_nat n)) n "" Hn) as (k & Hk & Hdig); [lia|].
  rewrite Hdig. cbn. f_equal. lia.
Qed.

Lemma file_key_injective i j :
  0 <= i → 0 <= j → file_key i = file_key j → i = j.
Proof.
  intros Hi Hj Hkey. unfold file_key in Hkey.
  apply (f_equal (JsString.substring_from 5)) in Hkey. simpl in Hkey.
  change (JsString.to_decimal i = JsString.to_decimal j) in Hkey. rename Hkey into Hdec.
  pose proof (to_decimal_digits i Hi) as Ei. rewrite Hdec, (to_decimal_digits j Hj) in Ei.
  by injection Ei.
Qed.

Lemma file_key_not_manifest i : file_key i ≠ manifest_key.
Proof. by cbn. Qed.

Theorem cleanupShareCache_keeps_later_blobs sd s j :
  0 <= j → fileCount sd <= j →
  cache (cleanupShareCache sd s).1 !! file_key j = cache s !! file_key j.
Proof.
  intros Hj Hlater. apply cleanupShareCache_frame.
  - apply file_key_not_manifest.
  - intros i Hi Heq. apply file_key_injective in Heq; lia.
Qed.
